(** * Survival tables from duration records, duration records from event logs

    A shallow embedding of the three scripts of the repository:

    - [durations_to_survival.py]: the life table (at-risk counts, censoring,
      Kaplan-Meier survival and Nelson-Aalen cumulative hazard);
    - [events_to_durations.py] and [events_to_conversions.py]: one duration
      record per unit of an event log.

    A pandas [Series] is a list of values in index order; the frames of the
    scripts are lists of rows or groups of aligned columns.  Counts are
    integers ([Z]).  The ratios of the estimators are taken in an arithmetic
    [Arith R]; two instances are given, exact rationals ([Qc]) and IEEE
    binary64 ([float], what numpy computes with). *)

From Stdlib Require Import String QArith Qcanon Floats.
From Stdlib Require Import ZArith List Bool Lia Lqa Sorted Permutation.
Import ListNotations.

Local Open Scope Z_scope.

(** ** The arithmetic of the estimators *)

Class Arith (R : Type) : Type := {
  of_int : Z -> R;
  radd : R -> R -> R;
  rsub : R -> R -> R;
  rmul : R -> R -> R;
  rdiv : R -> R -> R
}.

(** Exact rationals in canonical form: equality is Leibniz equality. *)
#[export] Instance Arith_Qc : Arith Qc := {
  of_int z := Q2Qc (inject_Z z);
  radd := Qcplus;
  rsub := Qcminus;
  rmul := Qcmult;
  rdiv := Qcdiv
}.

(** Conversion of an integer to binary64, rounding to nearest as the
    conversion of an int64 column does (for magnitudes below [2^63], as the
    counts of a frame are). *)
Definition float_of_Z (z : Z) : float :=
  if z <? 0 then PrimFloat.opp (PrimFloat.of_uint63 (Uint63.of_Z (- z)))
  else PrimFloat.of_uint63 (Uint63.of_Z z).

#[export] Instance Arith_float : Arith float := {
  of_int := float_of_Z;
  radd := PrimFloat.add;
  rsub := PrimFloat.sub;
  rmul := PrimFloat.mul;
  rdiv := PrimFloat.div
}.

(** ** Series operations *)

Module Series.

Section Accumulate.
Context {A : Type} (op : A -> A -> A).

(** The scan behind [cumsum] and [cumprod]: every output is the previous
    output combined with the next input, left to right. *)
Fixpoint accumulate_from (acc : A) (xs : list A) : list A :=
  match xs with
  | [] => []
  | x :: t => op acc x :: accumulate_from (op acc x) t
  end.

Definition accumulate (xs : list A) : list A :=
  match xs with
  | [] => []
  | x :: t => x :: accumulate_from x t
  end.

End Accumulate.

Definition cumsum (xs : list Z) : list Z := accumulate Z.add xs.

(** [s.shift(1, fill_value=fill)]: every value moves one position down, the
    last one is dropped and the first position is filled. *)
Definition shift_fwd {A : Type} (fill : A) (xs : list A) : list A :=
  firstn (length xs) (fill :: xs).

(** [s.shift(-1, fill_value=fill)]: every value moves one position up, the
    first one is dropped and the last position is filled. *)
Definition shift_back {A : Type} (fill : A) (xs : list A) : list A :=
  match xs with
  | [] => []
  | _ :: t => t ++ [fill]
  end.

(** Element-wise binary operation on two series with the same index. *)
Fixpoint zip_with {A B C : Type} (f : A -> B -> C) (xs : list A) (ys : list B)
  : list C :=
  match xs, ys with
  | x :: xs', y :: ys' => f x y :: zip_with f xs' ys'
  | _, _ => []
  end.

End Series.

(** ** [durations_to_survival.py] *)

Module Survival.
Import Series.

(** A row of the durations table: the two columns the script reads. *)
Record Duration (D : Type) : Type := mkDuration {
  duration_days : D;
  endpoint_observed : bool
}.
Arguments mkDuration {D} _ _.
Arguments duration_days {D} _.
Arguments endpoint_observed {D} _.

(** The keys of a [groupby]: the distinct values of the column, ascending. *)
Fixpoint insert_key (k : Z) (ks : list Z) : list Z :=
  match ks with
  | [] => [k]
  | h :: t =>
      if k <? h then k :: ks
      else if k =? h then ks
      else h :: insert_key k t
  end.

Definition group_keys (col : list Z) : list Z := fold_right insert_key [] col.

(** The frame [survival] as built on lines 22-32: indexed by bucket, with the
    columns [at_risk], [num_obs] and [events]. *)
Record Row : Type := mkRow {
  bucket_key : Z;
  at_risk : Z;
  num_obs : Z;
  events : Z
}.

Section LifeTable.
Context {D : Type} (bucket : D -> Z).
Variable durations : list (Duration D).

(** Line 18: the duration column replaced by its bucket.  The script rounds
    the days up to an integer ([np.ceil(...).astype(int)]); any function
    [bucket] into the integers is allowed here. *)
Definition bucketed : list (Z * bool) :=
  map (fun r => (bucket (duration_days r), endpoint_observed r)) durations.

(** Line 21: [grp = durations.groupby("duration_days")]. *)
Definition grp_keys : list Z := group_keys (map fst bucketed).

Definition grp_get (k : Z) : list (Z * bool) :=
  filter (fun r => fst r =? k) bucketed.

(** [grp.size()] *)
Definition grp_size : list Z :=
  map (fun k => Z.of_nat (length (grp_get k))) grp_keys.

(** [grp["endpoint_observed"].sum()]: a sum of booleans counts the true. *)
Definition grp_sum : list Z :=
  map (fun k => fold_right Z.add 0 (map (fun r => Z.b2z (snd r)) (grp_get k)))
      grp_keys.

(** Lines 30-32. *)
Definition num_subjects : Z := Z.of_nat (length durations).

Definition prior_count : list Z := shift_fwd 0 (cumsum grp_size).

Definition at_risk_col : list Z := map (fun p => num_subjects - p) prior_count.

Definition survival_all : list Row :=
  zip_with (fun k '(a, (n, e)) => mkRow k a n e)
           grp_keys (combine at_risk_col (combine grp_size grp_sum)).

(** Line 36: keep only the rows with at least one event. *)
Definition survival : list Row :=
  filter (fun r => 0 <? events r) survival_all.

(** Lines 45-49. *)
Definition censored : list Z :=
  zip_with Z.sub
    (zip_with Z.sub (map at_risk survival) (shift_back 0 (map at_risk survival)))
    (map events survival).

Section Estimators.
Context {R : Type} `{Arith R}.

(** [survival["events"] / survival["at_risk"]] *)
Definition hazard : list R :=
  zip_with (fun e a => rdiv (of_int e) (of_int a))
           (map events survival) (map at_risk survival).

(** Lines 55-56. *)
Definition inverse_hazard : list R := map (fun h => rsub (of_int 1) h) hazard.

Definition survival_proba : list R := accumulate rmul inverse_hazard.

(** Line 59. *)
Definition conversion_pct : list R :=
  map (fun s => rmul (of_int 100) (rsub (of_int 1) s)) survival_proba.

(** Line 90. *)
Definition cumulative_hazard : list R := accumulate radd hazard.

End Estimators.
End LifeTable.

End Survival.

(** ** [events_to_durations.py] and [events_to_conversions.py] *)

Module Events.
Import Survival.

(** A row of the event log.  The column designators are bound as both scripts
    bind them ([unit="visitorid"], [timestamp="timestamp"], [event="event"]);
    timestamps are [datetime64[ns]] values, read as integers (nanoseconds). *)
Record Event : Type := mkEvent {
  visitorid : Z;
  timestamp : Z;
  event : string
}.

(** A frame of events with the default index: the label of a row is its
    position. *)
Definition DataFrame : Type := list Event.

Inductive Error : Type :=
| IndexError     (* [iloc]: positional indexer out of bounds *)
| ValueError     (* column assignment: reindexing on duplicate labels *)
| OverflowError. (* subtraction of timestamps: overflow in int64 *)

Definition result (A : Type) : Type := (Error + A)%type.

Definition bind {A B : Type} (m : result A) (k : A -> result B) : result B :=
  match m with
  | inl e => inl e
  | inr a => k a
  end.

Notation "x <- m ;; k" := (bind m (fun x => k))
  (at level 61, m at next level, right associativity).

(** One row of the returned table, indexed by unit.  A missing value ([NaN],
    [NaT]) is [None]. *)
Record DurationRecord : Type := mkDurationRecord {
  unit_id : Z;
  entry_time : option Z;
  endpoint : option string;
  endpoint_time : option Z;
  final_obs_time : option Z;
  duration : option Z
}.

(** [Series.min()] and [Series.max()]: missing on an empty series. *)
Definition series_min (xs : list Z) : option Z :=
  match xs with
  | [] => None
  | x :: t => Some (fold_left Z.min t x)
  end.

Definition series_max (xs : list Z) : option Z :=
  match xs with
  | [] => None
  | x :: t => Some (fold_left Z.max t x)
  end.

(** [idxmin]: the label of the first occurrence of the minimum. *)
Fixpoint idxmin_from (best : nat * Z) (rows : list (nat * Z)) : nat :=
  match rows with
  | [] => fst best
  | r :: t => idxmin_from (if snd r <? snd best then r else best) t
  end.

Definition idxmin (rows : list (nat * Z)) : option nat :=
  match rows with
  | [] => None
  | r :: t => Some (idxmin_from r t)
  end.

Definition isin (e : string) (values : list string) : bool :=
  existsb (String.eqb e) values.

Definition with_index (frame : DataFrame) : list (nat * Event) :=
  combine (seq 0 (length frame)) frame.

(** [frame.iloc[labels]] *)
Fixpoint iloc (frame : DataFrame) (labels : list nat) : result (list Event) :=
  match labels with
  | [] => inr []
  | l :: t =>
      match nth_error frame l with
      | None => inl IndexError
      | Some r => rows <- iloc frame t ;; inr (r :: rows)
      end
  end.

Fixpoint unique (ks : list Z) : bool :=
  match ks with
  | [] => true
  | k :: t => negb (existsb (Z.eqb k) t) && unique t
  end.

Definition lookup (u : Z) (rows : list Event) : option Event :=
  find (fun r => visitorid r =? u) rows.

(** [durations[col] = series]: the series, indexed by unit, is aligned on the
    index of [durations]; units without an entry get a missing value, and an
    index with duplicates cannot be aligned. *)
Definition align (index : list Z) (rows : list Event)
  : result (list (option Event)) :=
  if unique (map visitorid rows)
  then inr (map (fun u => lookup u rows) index)
  else inl ValueError.

Definition fillna (x fill : option Z) : option Z :=
  match x with
  | Some t => Some t
  | None => fill
  end.

(** Timestamps are [datetime64[ns]] values and their differences
    [timedelta64[ns]] values: 64-bit counts of nanoseconds, the least 64-bit
    integer standing for the missing value. *)
Definition int64_max : Z := 9223372036854775807.

Definition timedelta_ok (d : Z) : bool :=
  (- int64_max <=? d) && (d <=? int64_max).

(** The difference of two timestamps: missing when one of them is, and an
    [OverflowError] when it does not fit a [timedelta64[ns]]. *)
Definition tsub (a b : option Z) : result (option Z) :=
  match a, b with
  | Some x, Some y =>
      if timedelta_ok (x - y) then inr (Some (x - y)) else inl OverflowError
  | _, _ => inr None
  end.

(** The rows of a column computed element by element: the first error, or
    all the values. *)
Fixpoint collect {A : Type} (rs : list (result A)) : result (list A) :=
  match rs with
  | [] => inr []
  | r :: t => a <- r ;; rest <- collect t ;; inr (a :: rest)
  end.

Section Body.
(** [log] is the frame lines 43 and 48 read; [df] is the frame lines 54 and
    63 read. *)
Variables (log df : DataFrame) (endpoints : list string).

Definition units : list Z := group_keys (map visitorid log).

(** Lines 43-45. *)
Definition entry_times : list (Z * option Z) :=
  map (fun u =>
         (u, series_min
               (map timestamp (filter (fun r => visitorid r =? u) log))))
      units.

(** Line 48. *)
Definition df_endpoint_rows : list (nat * Event) :=
  filter (fun r => isin (event (snd r)) endpoints) (with_index log).

(** Lines 50-53: per unit, the label of its earliest endpoint event. *)
Definition endpoint_events : list nat :=
  flat_map
    (fun u =>
       match idxmin (map (fun r => (fst r, timestamp (snd r)))
                         (filter (fun r => visitorid (snd r) =? u)
                                 df_endpoint_rows)) with
       | Some l => [l]
       | None => []
       end)
    (group_keys (map (fun r => visitorid (snd r)) df_endpoint_rows)).

(** Line 63. *)
Definition censoring_time : option Z := series_max (map timestamp df).

(** Lines 58-68 for one unit: [found] is the row of [df_endpoint] with the
    unit's label, if any. *)
Definition record_of (u : Z) (entry : option Z) (found : option Event)
  : result DurationRecord :=
  let endpoint_time := option_map timestamp found in
  let final_obs_time := fillna endpoint_time censoring_time in
  duration <- tsub final_obs_time entry ;;
  inr {| unit_id := u;
         entry_time := entry;
         endpoint := option_map event found;
         endpoint_time := endpoint_time;
         final_obs_time := final_obs_time;
         duration := duration |}.

(** Lines 54-70.  The subtraction of line 68 is the last step that can fail:
    it fails for the whole column when it overflows in one row. *)
Definition aggregate : result (list DurationRecord) :=
  df_endpoint <- iloc df endpoint_events ;;
  found <- align units df_endpoint ;;
  collect (Series.zip_with (fun ue f => record_of (fst ue) (snd ue) f)
                           entry_times found).

End Body.

(** [events_to_durations(event_log, unit, timestamp, event, endpoints)], run
    with the module-level frame [df] it reads on lines 54 and 63. *)
Definition events_to_durations (df : DataFrame) (event_log : DataFrame)
    (endpoints : list string) : result (list DurationRecord) :=
  aggregate event_log df endpoints.

(** [events_to_conversions(data, unit, timestamp, event, conversion_events)],
    run with the module-level frame [df]: every line of its body reads [df],
    none reads [data]. *)
Definition events_to_conversions (df : DataFrame) (data : DataFrame)
    (conversion_events : list string) : result (list DurationRecord) :=
  aggregate df df conversion_events.

(** Line 109 of [events_to_durations.py]:
    [durations["endpoint"].notnull()]. *)
Definition endpoint_observed_of (r : DurationRecord) : bool :=
  match endpoint r with
  | Some _ => true
  | None => false
  end.

End Events.

(** ** Reference definitions, in the words of the specification *)

Module Reference.

(** [running op f i] is [f 0 `op` f 1 `op` ... `op` f i], combined in
    ascending order of the index: the running product of the Kaplan-Meier
    estimate and the running sum of the Nelson-Aalen estimate. *)
Fixpoint running {A : Type} (op : A -> A -> A) (f : nat -> A) (i : nat) : A :=
  match i with
  | O => f O
  | S j => op (running op f j) (f (S j))
  end.

(** The number of records whose bucketed duration is at least [k]. *)
Definition at_risk_direct {D : Type} (bucket : D -> Z)
    (durations : list (Survival.Duration D)) (k : Z) : Z :=
  Z.of_nat
    (length (filter (fun r => k <=? bucket (Survival.duration_days r)) durations)).

(** A sequence that never increases, and one that never decreases. *)
Definition non_increasing {A : Type} (le : A -> A -> Prop) (xs : list A) : Prop :=
  StronglySorted (fun a b => le b a) xs.

Definition non_decreasing {A : Type} (le : A -> A -> Prop) (xs : list A) : Prop :=
  StronglySorted le xs.

End Reference.

Import Series Survival Events Reference.

(** The records of Scenario A of the specification. *)
Definition scenario_A : list (Duration Z) :=
  [mkDuration 1 true; mkDuration 1 true; mkDuration 2 true; mkDuration 3 false;
   mkDuration 3 true; mkDuration 3 true; mkDuration 4 true].

(** ** Auxiliary notions of the proofs *)

(** The number of values of a column that satisfy a test. *)
Definition count (p : Z -> bool) (col : list Z) : Z :=
  Z.of_nat (length (filter p col)).

Definition sum_list (xs : list Z) : Z := fold_right Z.add 0 xs.

(** The running total that precedes each position, and the total that remains
    from each position on. *)
Fixpoint totals_before (a : Z) (xs : list Z) : list Z :=
  match xs with
  | [] => []
  | x :: t => a :: totals_before (a + x) t
  end.

Fixpoint totals_from (xs : list Z) : list Z :=
  match xs with
  | [] => []
  | x :: t => sum_list (x :: t) :: totals_from t
  end.

(** Values of the column at or above a key of [ks] are themselves in [ks]. *)
Definition covers (col ks : list Z) : Prop :=
  forall x k, In x col -> In k ks -> k <= x -> In x ks.

(** The row of the frame for the bucket [k], read off the records directly. *)
Definition events_at {D : Type} (bucket : D -> Z) (durations : list (Duration D))
    (k : Z) : Z :=
  sum_list (map (fun r => Z.b2z (snd r)) (grp_get bucket durations k)).

Definition row_of {D : Type} (bucket : D -> Z) (durations : list (Duration D))
    (k : Z) : Row :=
  mkRow k (at_risk_direct bucket durations k)
        (count (fun x => x =? k) (map fst (bucketed bucket durations)))
        (events_at bucket durations k).

(** What every row of the frame satisfies, and what relates a row to the rows
    below it. *)
Definition row_ok (r : Row) : Prop :=
  0 <= events r <= num_obs r /\ 1 <= num_obs r <= at_risk r.

Definition row_before (r1 r2 : Row) : Prop :=
  bucket_key r1 < bucket_key r2 /\ at_risk r2 + num_obs r1 <= at_risk r1.

(** The censored column, row by row. *)
Fixpoint censored_rows (rows : list Row) : list Z :=
  match rows with
  | [] => []
  | r :: t =>
      (at_risk r - match t with [] => 0 | r' :: _ => at_risk r' end - events r)
      :: censored_rows t
  end.

(** The ratio [events[j] / at_risk[j]] of the row at position [j]. *)
Definition hazard_at {R : Type} `{Arith R} {D : Type} (bucket : D -> Z)
    (durations : list (Duration D)) (j : nat) : R :=
  rdiv (of_int (nth j (map events (survival bucket durations)) 0))
       (of_int (nth j (map at_risk (survival bucket durations)) 0)).

(** The factor of the Kaplan-Meier product contributed by a row. *)
Definition km_factor (r : Row) : Qc :=
  (1 - of_int (events r) / of_int (at_risk r))%Qc.

(** The number of elements of a list that satisfy a test. *)
Definition count_if {A : Type} (p : A -> bool) (l : list A) : Z :=
  Z.of_nat (length (filter p l)).

(** The bucket of a record. *)
Definition bucket_of {D : Type} (bucket : D -> Z) (d : Duration D) : Z :=
  bucket (duration_days d).

(** The number of records censored (endpoint not observed) in the buckets from
    [lo] up to, and not including, [hi]; with no [hi], in all buckets from
    [lo] on. *)
Definition censored_between {D : Type} (bucket : D -> Z)
    (durations : list (Duration D)) (lo : Z) (hi : option Z) : Z :=
  count_if
    (fun d =>
       (lo <=? bucket_of bucket d)
       && match hi with
          | Some h => bucket_of bucket d <? h
          | None => true
          end
       && negb (endpoint_observed d))
    durations.

(** The censored counts read off the records, for the keys of the table. *)
Fixpoint censored_direct {D : Type} (bucket : D -> Z)
    (durations : list (Duration D)) (keys : list Z) : list Z :=
  match keys with
  | [] => []
  | k :: t =>
      censored_between bucket durations k (hd_error t)
      :: censored_direct bucket durations t
  end.

(** The hazard ratio contributed by a row, in exact rationals. *)
Definition hazard_of (r : Row) : Qc :=
  (of_int (events r) / of_int (at_risk r))%Qc.

(** Three records without censoring. *)
Definition uncensored_sample : list (Duration Z) :=
  [mkDuration 1 true; mkDuration 3 true; mkDuration 1 true].

(** [e] is the earliest endpoint event of the unit [u] in the log: an event
    of the unit with an endpoint type, strictly earlier than every such event
    before it in the log and not later than any such event after it. *)
Definition earliest_endpoint_event (log : DataFrame) (endpoints : list string)
    (u : Z) (e : Event) : Prop :=
  visitorid e = u
  /\ isin (event e) endpoints = true
  /\ exists pre post,
      log = (pre ++ e :: post)%list
      /\ (forall e', In e' pre -> visitorid e' = u ->
                     isin (event e') endpoints = true ->
                     timestamp e < timestamp e')
      /\ (forall e', In e' post -> visitorid e' = u ->
                     isin (event e') endpoints = true ->
                     timestamp e <= timestamp e').

(** What a record of the table says about its unit: the unit has an event in
    the log; the entry time is the earliest timestamp of the unit; the
    endpoint, its time and the final observation time come from the unit's
    earliest endpoint event, or are missing, with the final observation time
    the latest timestamp of the log, when the unit has no endpoint event; and
    the duration is the difference of the final observation time and the
    entry time. *)
Definition record_facts (log : DataFrame) (endpoints : list string)
    (r : DurationRecord) : Prop :=
  (exists e, In e log /\ visitorid e = unit_id r)
  /\ (exists m,
         entry_time r = Some m
         /\ (exists e, In e log /\ visitorid e = unit_id r /\ timestamp e = m)
         /\ forall e, In e log -> visitorid e = unit_id r -> m <= timestamp e)
  /\ match endpoint_time r with
     | Some t =>
         exists e,
           earliest_endpoint_event log endpoints (unit_id r) e
           /\ t = timestamp e
           /\ endpoint r = Some (event e)
           /\ final_obs_time r = Some t
     | None =>
         endpoint r = None
         /\ (forall e, In e log -> visitorid e = unit_id r ->
                       isin (event e) endpoints = false)
         /\ final_obs_time r = series_max (map timestamp log)
     end
  /\ tsub (final_obs_time r) (entry_time r) = inr (duration r).

(** The span of the timestamps of a frame, latest minus earliest, fits a
    [timedelta64[ns]]. *)
Definition span_fits (frame : DataFrame) : Prop :=
  match series_min (map timestamp frame), series_max (map timestamp frame) with
  | Some lo, Some hi => hi - lo <= int64_max
  | _, _ => True
  end.

(** Sample logs: one event that is no endpoint, and one that is. *)
Definition view_log : DataFrame := [mkEvent 1 5 "view"%string].

Definition transaction_log : DataFrame := [mkEvent 1 5 "transaction"%string].

(** The censored counts as the specification backs them out, for the keys of
    the buckets that hold an event, in ascending order: the number at risk at
    the bucket (records in this or a later bucket), minus the number at risk
    at the next such bucket (0 after the last one), minus the events of the
    bucket. *)
Definition events_direct {D : Type} (bucket : D -> Z)
    (durations : list (Duration D)) (k : Z) : Z :=
  count_if (fun d => (bucket_of bucket d =? k) && endpoint_observed d)
           durations.

Fixpoint backed_out {D : Type} (bucket : D -> Z)
    (durations : list (Duration D)) (keys : list Z) : list Z :=
  match keys with
  | [] => []
  | k :: t =>
      (at_risk_direct bucket durations k
       - match t with
         | [] => 0
         | k' :: _ => at_risk_direct bucket durations k'
         end
       - events_direct bucket durations k)
      :: backed_out bucket durations t
  end.

(** * Facts about the series operations *)

Section SeriesFacts.
Context {A : Type} (op : A -> A -> A).

Lemma length_accumulate_from (a : A) (xs : list A) :
  length (accumulate_from op a xs) = length xs.
Proof.
  revert a; induction xs as [|x t IH]; intros a; simpl; [reflexivity|].
  now rewrite IH.
Qed.

Lemma length_accumulate (xs : list A) :
  length (accumulate op xs) = length xs.
Proof.
  destruct xs as [|x t]; simpl; [reflexivity|].
  now rewrite length_accumulate_from.
Qed.

(** Moving the accumulator into the head of the sequence shifts the running
    aggregate by one position. *)
Lemma running_shift (d a x : A) (t : list A) (i : nat) :
  running op (fun j => nth j (op a x :: t) d) i
  = running op (fun j => nth j (a :: x :: t) d) (S i).
Proof.
  induction i as [|i IH].
  - reflexivity.
  - change (running op (fun j => nth j (op a x :: t) d) (S i))
      with (op (running op (fun j => nth j (op a x :: t) d) i) (nth i t d)).
    rewrite IH. reflexivity.
Qed.

Lemma nth_accumulate_from (d a : A) (xs : list A) (i : nat) :
  (i < length xs)%nat ->
  nth i (accumulate_from op a xs) d
  = running op (fun j => nth j (a :: xs) d) (S i).
Proof.
  revert a i; induction xs as [|x t IH]; intros a i Hi; simpl in Hi; [lia|].
  destruct i as [|i].
  - reflexivity.
  - change (nth (S i) (accumulate_from op a (x :: t)) d)
      with (nth i (accumulate_from op (op a x) t) d).
    rewrite IH by lia. apply running_shift.
Qed.

Lemma nth_accumulate (d : A) (xs : list A) (i : nat) :
  (i < length xs)%nat ->
  nth i (accumulate op xs) d = running op (fun j => nth j xs d) i.
Proof.
  destruct xs as [|x t]; simpl; intros Hi; [lia|].
  destruct i as [|i]; [reflexivity|].
  now rewrite nth_accumulate_from by lia.
Qed.

(** A series is the list of its values by position. *)
Lemma series_by_position (d : A) (xs : list A) :
  xs = map (fun i => nth i xs d) (seq 0 (length xs)).
Proof.
  apply nth_ext with (d := d) (d' := d).
  - now rewrite length_map, length_seq.
  - intros n Hn. symmetry.
    transitivity (nth n (map (fun i => nth i xs d) (seq 0 (length xs)))
                      ((fun i => nth i xs d) O)).
    + apply nth_indep. now rewrite length_map, length_seq.
    + rewrite (map_nth (fun i => nth i xs d)), seq_nth by assumption.
      reflexivity.
Qed.

Lemma accumulate_running (d : A) (xs : list A) :
  accumulate op xs
  = map (running op (fun j => nth j xs d)) (seq 0 (length xs)).
Proof.
  rewrite (series_by_position d (accumulate op xs)), length_accumulate.
  apply map_ext_in. intros i Hi. apply in_seq in Hi.
  apply nth_accumulate. lia.
Qed.

End SeriesFacts.

Lemma shift_accumulate_from (a : Z) (xs : list Z) :
  firstn (length xs) (a :: accumulate_from Z.add a xs) = totals_before a xs.
Proof.
  revert a; induction xs as [|x t IH]; intros a; [reflexivity|].
  simpl. f_equal. apply IH.
Qed.

Lemma shift_cumsum (xs : list Z) :
  shift_fwd 0 (cumsum xs) = totals_before 0 xs.
Proof.
  unfold shift_fwd, cumsum. rewrite length_accumulate.
  destruct xs as [|x t]; [reflexivity|].
  simpl. f_equal. apply shift_accumulate_from.
Qed.

Lemma complement_totals (n a : Z) (xs : list Z) :
  n - a = sum_list xs ->
  map (fun p => n - p) (totals_before a xs) = totals_from xs.
Proof.
  revert a; induction xs as [|x t IH]; intros a Hn; [reflexivity|].
  simpl. f_equal; [exact Hn|]. apply IH. simpl in Hn. lia.
Qed.

Lemma zip_with_maps {K A B C T : Type} (f : K -> A * (B * C) -> T)
    (a : K -> A) (b : K -> B) (c : K -> C) (ks : list K) :
  zip_with f ks (combine (map a ks) (combine (map b ks) (map c ks)))
  = map (fun k => f k (a k, (b k, c k))) ks.
Proof.
  induction ks as [|k t IH]; simpl; [reflexivity|]. now rewrite IH.
Qed.

Lemma length_filter_map {A B : Type} (f : A -> B) (p : B -> bool) (l : list A) :
  length (filter (fun a => p (f a)) l) = length (filter p (map f l)).
Proof.
  induction l as [|a t IH]; simpl; [reflexivity|].
  destruct (p (f a)); simpl; now rewrite IH.
Qed.

Lemma StronglySorted_map {A B : Type} (R : B -> B -> Prop) (f : A -> B)
    (l : list A) :
  StronglySorted (fun x y => R (f x) (f y)) l -> StronglySorted R (map f l).
Proof.
  induction 1 as [|a t Hs IH Hall]; simpl; constructor; [assumption|].
  rewrite Forall_map. exact Hall.
Qed.

Lemma StronglySorted_filter {A : Type} (R : A -> A -> Prop) (p : A -> bool)
    (l : list A) :
  StronglySorted R l -> StronglySorted R (filter p l).
Proof.
  induction 1 as [|a t Hs IH Hall]; simpl; [constructor|].
  destruct (p a); [|assumption].
  constructor; [assumption|].
  rewrite Forall_forall in *. intros x Hx. apply filter_In in Hx.
  now apply Hall.
Qed.

Lemma StronglySorted_impl {A : Type} (R S : A -> A -> Prop) (l : list A) :
  (forall x y, R x y -> S x y) -> StronglySorted R l -> StronglySorted S l.
Proof.
  intros HRS. induction 1 as [|a t Hs IH Hall]; constructor; [assumption|].
  eapply Forall_impl; [|exact Hall]. intros; now apply HRS.
Qed.

(** * Facts about grouping *)

Lemma in_insert_key (x k : Z) (ks : list Z) :
  In x (insert_key k ks) <-> x = k \/ In x ks.
Proof.
  induction ks as [|h t IH]; simpl.
  - intuition.
  - destruct (k <? h) eqn:Hlt; [simpl; intuition|].
    destruct (k =? h) eqn:Heq.
    + apply Z.eqb_eq in Heq. subst h. simpl. intuition.
    + simpl. rewrite IH. intuition.
Qed.

Lemma insert_key_sorted (k : Z) (ks : list Z) :
  StronglySorted Z.lt ks -> StronglySorted Z.lt (insert_key k ks).
Proof.
  induction 1 as [|h t Hs IH Hall]; simpl.
  - repeat constructor.
  - destruct (k <? h) eqn:Hlt.
    + apply Z.ltb_lt in Hlt. constructor; [now constructor|].
      constructor; [assumption|].
      eapply Forall_impl; [|exact Hall]. intros; simpl in *; lia.
    + destruct (k =? h) eqn:Heq; [now constructor|].
      apply Z.ltb_ge in Hlt. apply Z.eqb_neq in Heq.
      constructor; [assumption|].
      apply Forall_forall. intros x Hx. apply in_insert_key in Hx.
      destruct Hx as [->|Hx]; [lia|].
      rewrite Forall_forall in Hall. now apply Hall.
Qed.

Lemma in_group_keys (x : Z) (col : list Z) :
  In x (group_keys col) <-> In x col.
Proof.
  induction col as [|c t IH]; simpl; [reflexivity|].
  rewrite in_insert_key, IH. intuition.
Qed.

Lemma group_keys_sorted (col : list Z) : StronglySorted Z.lt (group_keys col).
Proof.
  induction col as [|c t IH]; simpl; [constructor|].
  now apply insert_key_sorted.
Qed.

Lemma count_cons (p : Z -> bool) (x : Z) (col : list Z) :
  count p (x :: col) = Z.b2z (p x) + count p col.
Proof.
  unfold count; simpl. destruct (p x); simpl length; simpl Z.b2z; lia.
Qed.

Lemma count_nonneg (p : Z -> bool) (col : list Z) : 0 <= count p col.
Proof. unfold count; lia. Qed.

Lemma count_ext_in (p q : Z -> bool) (col : list Z) :
  (forall x, In x col -> p x = q x) -> count p col = count q col.
Proof.
  intros Hpq. unfold count. now rewrite (filter_ext_in p q col Hpq).
Qed.

Lemma count_pos (p : Z -> bool) (x : Z) (col : list Z) :
  In x col -> p x = true -> 1 <= count p col.
Proof.
  induction col as [|c t IH]; simpl; [tauto|].
  intros [->|Hin] Hp; rewrite count_cons.
  - rewrite Hp. pose proof (count_nonneg p t). cbn [Z.b2z]. lia.
  - specialize (IH Hin Hp). destruct (p c); cbn [Z.b2z]; lia.
Qed.

Lemma count_eq_le (col : list Z) (k : Z) :
  count (fun x => x =? k) col <= count (fun x => k <=? x) col.
Proof.
  induction col as [|c col IH]; [reflexivity|]. rewrite !count_cons.
  destruct (Z.eqb_spec c k); destruct (Z.leb_spec k c); cbn [Z.b2z]; lia.
Qed.

Lemma count_step (col : list Z) (k1 k2 : Z) :
  k1 < k2 ->
  count (fun x => k2 <=? x) col + count (fun x => x =? k1) col
  <= count (fun x => k1 <=? x) col.
Proof.
  intros Hlt. induction col as [|c col IH]; [reflexivity|]. rewrite !count_cons.
  destruct (Z.eqb_spec c k1); destruct (Z.leb_spec k1 c);
    destruct (Z.leb_spec k2 c); cbn [Z.b2z]; lia.
Qed.

(** Over keys in strictly ascending order, the group sizes from a key onwards
    add up to the number of values at or above that key. *)
Lemma sum_sizes_from (col : list Z) (k : Z) (ks : list Z) :
  StronglySorted Z.lt (k :: ks) ->
  (forall x, In x col -> k <= x -> In x (k :: ks)) ->
  sum_list (map (fun k' => count (fun x => x =? k') col) (k :: ks))
  = count (fun x => k <=? x) col.
Proof.
  revert k; induction ks as [|k2 t IH]; intros k Hs Hcov.
  - simpl. rewrite Z.add_0_r. apply count_ext_in. intros x Hx.
    destruct (Z.leb_spec k x) as [Hle|Hlt].
    + destruct (Hcov x Hx Hle) as [->|[]]. apply Z.eqb_refl.
    + apply Z.eqb_neq. lia.
  - inversion Hs as [|? ? Hs' Hall]; subst.
    assert (Hk2 : k < k2) by now inversion Hall.
    change (sum_list (map (fun k' => count (fun x => x =? k') col) (k :: k2 :: t)))
      with (count (fun x => x =? k) col
            + sum_list (map (fun k' => count (fun x => x =? k') col) (k2 :: t))).
    rewrite IH; [|assumption|].
    + clear - Hk2 Hcov Hs'. induction col as [|c col IHc]; [reflexivity|].
      rewrite !count_cons, <- IHc by (intros x Hx; apply Hcov; now right).
      destruct (Z.eqb_spec c k) as [->|Hne].
      * destruct (Z.leb_spec k2 k); [lia|].
        destruct (Z.leb_spec k k); cbn [Z.b2z]; lia.
      * destruct (Z.leb_spec k c) as [Hle|Hlt].
        -- destruct (Hcov c (or_introl eq_refl) Hle) as [Heq|Hin];
             [congruence|].
           assert (k2 <= c).
           { destruct Hin as [->|Hin]; [lia|].
             inversion Hs' as [|? ? _ Hall2]; subst.
             rewrite Forall_forall in Hall2. specialize (Hall2 c Hin). lia. }
           destruct (Z.leb_spec k2 c); cbn [Z.b2z]; lia.
        -- destruct (Z.leb_spec k2 c); cbn [Z.b2z]; lia.
    + intros x Hx Hle.
      destruct (Hcov x Hx) as [Heq|Hin]; [lia|lia|assumption].
Qed.

Lemma covers_tail (col : list Z) (k : Z) (ks : list Z) :
  StronglySorted Z.lt (k :: ks) -> covers col (k :: ks) -> covers col ks.
Proof.
  intros Hs Hcov x k' Hx Hk' Hle.
  inversion Hs as [|? ? _ Hall]; subst. rewrite Forall_forall in Hall.
  destruct (Hcov x k' Hx (or_intror Hk') Hle) as [<-|Hin]; [|assumption].
  specialize (Hall k' Hk'). lia.
Qed.

Lemma totals_from_counts (col ks : list Z) :
  StronglySorted Z.lt ks -> covers col ks ->
  totals_from (map (fun k => count (fun x => x =? k) col) ks)
  = map (fun k => count (fun x => k <=? x) col) ks.
Proof.
  induction ks as [|k t IH]; intros Hs Hcov; [reflexivity|].
  change (totals_from (map (fun k0 => count (fun x => x =? k0) col) (k :: t)))
    with (sum_list (map (fun k0 => count (fun x => x =? k0) col) (k :: t))
          :: totals_from (map (fun k0 => count (fun x => x =? k0) col) t)).
  rewrite sum_sizes_from; [|assumption|].
  - rewrite IH; [reflexivity| |now apply covers_tail with k].
    now inversion Hs.
  - intros x Hx Hle. apply (Hcov x k Hx); [now left|assumption].
Qed.

Lemma sum_sizes_all (col : list Z) :
  sum_list (map (fun k => count (fun x => x =? k) col) (group_keys col))
  = Z.of_nat (length col).
Proof.
  pose proof (group_keys_sorted col) as Hs.
  destruct (group_keys col) as [|k t] eqn:Hk.
  - destruct col as [|c col]; [reflexivity|].
    assert (Hin : In c (group_keys (c :: col))) by (apply in_group_keys; now left).
    rewrite Hk in Hin. destruct Hin.
  - rewrite sum_sizes_from; [|assumption|].
    + unfold count. f_equal. f_equal.
      rewrite <- (filter_ext_in (fun _ => true)).
      * clear. induction col as [|c col IH]; simpl; congruence.
      * intros x Hx. symmetry. apply Z.leb_le.
        assert (Hin : In x (k :: t)) by (rewrite <- Hk; now apply in_group_keys).
        destruct Hin as [->|Hin]; [lia|].
        inversion Hs as [|? ? _ Hall]; subst. rewrite Forall_forall in Hall.
        specialize (Hall x Hin). lia.
    + intros x Hx _. rewrite <- Hk. now apply in_group_keys.
Qed.

(** * The frame of the life table *)

Section TableFacts.
Context {D : Type} (bucket : D -> Z) (durations : list (Duration D)).

Lemma grp_size_count :
  grp_size bucket durations
  = map (fun k => count (fun x => x =? k) (map fst (bucketed bucket durations)))
        (grp_keys bucket durations).
Proof.
  unfold grp_size. apply map_ext. intros k. unfold count, grp_get.
  now rewrite <- (length_filter_map fst (fun x => x =? k)).
Qed.

Lemma at_risk_direct_count (k : Z) :
  at_risk_direct bucket durations k
  = count (fun x => k <=? x) (map fst (bucketed bucket durations)).
Proof.
  unfold at_risk_direct, count, bucketed. rewrite map_map. simpl.
  now rewrite <- (length_filter_map (fun r => bucket (duration_days r))
                                    (fun x => k <=? x)).
Qed.

Lemma num_subjects_total :
  num_subjects durations = sum_list (grp_size bucket durations).
Proof.
  rewrite grp_size_count. unfold grp_keys. rewrite sum_sizes_all.
  unfold num_subjects, bucketed. now rewrite !length_map.
Qed.

Lemma at_risk_col_direct :
  at_risk_col bucket durations
  = map (at_risk_direct bucket durations) (grp_keys bucket durations).
Proof.
  unfold at_risk_col, prior_count. rewrite shift_cumsum.
  rewrite complement_totals
    by (rewrite Z.sub_0_r; apply num_subjects_total).
  rewrite grp_size_count, totals_from_counts.
  - apply map_ext. intros k. symmetry. apply at_risk_direct_count.
  - apply group_keys_sorted.
  - intros x k Hx _ _. now apply in_group_keys.
Qed.

Lemma survival_all_rows :
  survival_all bucket durations
  = map (row_of bucket durations) (grp_keys bucket durations).
Proof.
  unfold survival_all. rewrite at_risk_col_direct, grp_size_count.
  unfold grp_sum.
  exact (zip_with_maps (fun k '(a, (n, e)) => mkRow k a n e) _ _ _ _).
Qed.

Lemma events_at_bounds (k : Z) :
  0 <= events_at bucket durations k
  <= count (fun x => x =? k) (map fst (bucketed bucket durations)).
Proof.
  unfold events_at, count, grp_get.
  rewrite <- (length_filter_map fst (fun x => x =? k)).
  induction (bucketed bucket durations) as [|[x b] t IH]; simpl; [lia|].
  destruct (x =? k); [|exact IH].
  simpl map. simpl length. unfold sum_list in *. simpl fold_right.
  destruct b; cbn [Z.b2z]; lia.
Qed.

Lemma row_of_ok (k : Z) :
  In k (grp_keys bucket durations) -> row_ok (row_of bucket durations k).
Proof.
  intros Hk. apply (proj1 (in_group_keys _ _)) in Hk.
  pose proof (events_at_bounds k) as He.
  pose proof (count_eq_le (map fst (bucketed bucket durations)) k) as Hle.
  pose proof (count_pos (fun x => x =? k) k _ Hk (Z.eqb_refl k)) as Hpos.
  unfold row_ok, row_of; simpl. rewrite at_risk_direct_count. lia.
Qed.

Lemma row_of_before (k1 k2 : Z) :
  k1 < k2 -> row_before (row_of bucket durations k1) (row_of bucket durations k2).
Proof.
  intros Hlt. unfold row_before, row_of; simpl.
  rewrite !at_risk_direct_count. split; [assumption|].
  now apply count_step.
Qed.

Lemma survival_all_ok : Forall row_ok (survival_all bucket durations).
Proof.
  rewrite survival_all_rows, Forall_map, Forall_forall.
  intros k Hk. now apply row_of_ok.
Qed.

Lemma survival_all_sorted :
  StronglySorted row_before (survival_all bucket durations).
Proof.
  rewrite survival_all_rows. apply StronglySorted_map.
  eapply StronglySorted_impl; [|apply group_keys_sorted].
  intros x y Hxy. now apply row_of_before.
Qed.

Lemma survival_ok :
  Forall (fun r => row_ok r /\ 1 <= events r) (survival bucket durations).
Proof.
  apply Forall_forall. intros r Hr. apply filter_In in Hr.
  destruct Hr as [Hin Hev]. apply Z.ltb_lt in Hev. split; [|lia].
  pose proof survival_all_ok as Hall. rewrite Forall_forall in Hall.
  now apply Hall.
Qed.

Lemma survival_sorted : StronglySorted row_before (survival bucket durations).
Proof. apply StronglySorted_filter, survival_all_sorted. Qed.

Lemma censored_by_rows :
  censored bucket durations = censored_rows (survival bucket durations).
Proof.
  unfold censored, shift_back.
  induction (survival bucket durations) as [|r t IH]; [reflexivity|].
  destruct t as [|r' t']; [reflexivity|].
  simpl in *. f_equal. exact IH.
Qed.

End TableFacts.

(** * The claims about the life table *)

(** C2. The at-risk column of the script, the number of subjects minus the
    shifted cumulative sum of the group sizes, is bucket by bucket the number
    of records whose bucketed duration is at least the bucket's key; so is the
    [at_risk] of every row of the frame, before and after the rows without
    events are dropped. *)
Theorem at_risk_cumsum_is_direct_count {D : Type} (bucket : D -> Z)
    (durations : list (Duration D)) :
  at_risk_col bucket durations
  = map (at_risk_direct bucket durations) (grp_keys bucket durations)
  /\ Forall (fun r => at_risk r = at_risk_direct bucket durations (bucket_key r))
            (survival_all bucket durations)
  /\ Forall (fun r => at_risk r = at_risk_direct bucket durations (bucket_key r))
            (survival bucket durations).
Proof.
  assert (Hall : Forall (fun r => at_risk r
                                  = at_risk_direct bucket durations (bucket_key r))
                        (survival_all bucket durations)).
  { rewrite survival_all_rows, Forall_map. apply Forall_forall.
    intros k _. reflexivity. }
  split; [apply at_risk_col_direct|]. split; [exact Hall|].
  rewrite Forall_forall in *. intros r Hr. apply filter_In in Hr.
  now apply Hall.
Qed.

Lemma censored_rows_by_position (rows : list Row) :
  censored_rows rows
  = map (fun i => nth i (map at_risk rows) 0 - nth (S i) (map at_risk rows) 0
                  - nth i (map events rows) 0)
        (seq 0 (length rows)).
Proof.
  induction rows as [|r t IH]; [reflexivity|].
  cbn [censored_rows length seq map]. f_equal.
  - destruct t; reflexivity.
  - rewrite IH, <- seq_shift, map_map. reflexivity.
Qed.

Lemma censored_rows_bounds (rows : list Row) :
  StronglySorted row_before rows -> Forall row_ok rows ->
  Forall2 (fun r c => 0 <= c /\ events r + c <= at_risk r)
          rows (censored_rows rows).
Proof.
  induction 1 as [|r t Hs IH Hall]; intros Hok; [constructor|].
  inversion Hok as [|? ? Hr Hok']; subst.
  cbn [censored_rows]. constructor; [|now apply IH].
  destruct Hr as [[He0 He] [Hn Ha]].
  destruct t as [|r' t']; [lia|].
  inversion Hall as [|? ? [_ Hstep] _]; subst.
  inversion Hok' as [|? ? [_ [Hn' Ha']] _]; subst. lia.
Qed.

(** C10. Every row of the life table has a non-negative censored count, and
    its events and censored counts together do not exceed its at-risk
    count. *)
Theorem censored_nonneg {D : Type} (bucket : D -> Z)
    (durations : list (Duration D)) :
  Forall (fun c => 0 <= c) (censored bucket durations)
  /\ Forall2 (fun r c => events r + c <= at_risk r)
             (survival bucket durations) (censored bucket durations).
Proof.
  rewrite censored_by_rows.
  assert (H : Forall2 (fun r c => 0 <= c /\ events r + c <= at_risk r)
                      (survival bucket durations)
                      (censored_rows (survival bucket durations))).
  { apply censored_rows_bounds; [apply survival_sorted|].
    eapply Forall_impl; [|apply survival_ok]. intros r Hr; apply Hr. }
  induction H as [|r c rows cs [Hc Hrc] _ [IH1 IH2]]; split; constructor;
    assumption.
Qed.

(** * The estimators, in any arithmetic *)

Lemma zip_with_map_map {A B C T : Type} (f : B -> C -> T) (g : A -> B)
    (h : A -> C) (l : list A) :
  zip_with f (map g l) (map h l) = map (fun x => f (g x) (h x)) l.
Proof.
  induction l as [|a t IH]; simpl; [reflexivity|]. now rewrite IH.
Qed.

Lemma running_ext {A : Type} (op : A -> A -> A) (f g : nat -> A) (i : nat) :
  (forall j, (j <= i)%nat -> f j = g j) -> running op f i = running op g i.
Proof.
  induction i as [|i IH]; intros Hfg; simpl.
  - apply Hfg. lia.
  - rewrite IH by (intros j Hj; apply Hfg; lia).
    rewrite Hfg by lia. reflexivity.
Qed.

Lemma nth_map_in {A B : Type} (f : A -> B) (l : list A) (da : A) (db : B)
    (i : nat) :
  (i < length l)%nat -> nth i (map f l) db = f (nth i l da).
Proof.
  intros Hi. rewrite (nth_indep _ db (f da)) by now rewrite length_map.
  apply map_nth.
Qed.

Section EstimatorFacts.
Context {R : Type} `{Arith R}.
Context {D : Type} (bucket : D -> Z) (durations : list (Duration D)).

Lemma hazard_rows :
  hazard bucket durations
  = map (fun r => rdiv (of_int (events r)) (of_int (at_risk r)))
        (survival bucket durations).
Proof.
  exact (zip_with_map_map (fun e a => rdiv (of_int e) (of_int a))
                          events at_risk _).
Qed.

Lemma length_hazard :
  length (hazard bucket durations (R := R))
  = length (survival bucket durations).
Proof. rewrite hazard_rows. apply length_map. Qed.

Lemma nth_hazard (d : R) (j : nat) :
  (j < length (survival bucket durations))%nat ->
  nth j (hazard bucket durations) d = hazard_at bucket durations j.
Proof.
  intros Hj. unfold hazard_at. rewrite hazard_rows.
  rewrite (nth_map_in _ _ (mkRow 0 0 0 0)) by assumption.
  now rewrite !(nth_map_in _ _ (mkRow 0 0 0 0) 0) by assumption.
Qed.

Lemma cumulative_hazard_running :
  cumulative_hazard bucket durations
  = map (running radd (hazard_at bucket durations))
        (seq 0 (length (survival bucket durations))).
Proof.
  unfold cumulative_hazard.
  rewrite (accumulate_running radd (of_int 0)), length_hazard.
  apply map_ext_in. intros i Hi. apply in_seq in Hi.
  apply running_ext. intros j Hj. apply nth_hazard. lia.
Qed.

Lemma survival_proba_running :
  survival_proba bucket durations
  = map (running rmul (fun j => rsub (of_int 1) (hazard_at bucket durations j)))
        (seq 0 (length (survival bucket durations))).
Proof.
  unfold survival_proba, inverse_hazard.
  rewrite (accumulate_running rmul (of_int 0)), length_map, length_hazard.
  apply map_ext_in. intros i Hi. apply in_seq in Hi.
  apply running_ext. intros j Hj.
  rewrite (nth_map_in _ _ (of_int 0)) by (rewrite length_hazard; lia).
  f_equal. apply nth_hazard. lia.
Qed.

End EstimatorFacts.

(** * The estimators in exact rationals *)

Lemma Qc_ratio_bounds (e a : Z) :
  1 <= e <= a ->
  (0 < Q2Qc (inject_Z e) / Q2Qc (inject_Z a))%Qc
  /\ (Q2Qc (inject_Z e) / Q2Qc (inject_Z a) <= 1)%Qc.
Proof.
  intros He. unfold Qclt, Qcle, Qcdiv, Qcmult, Qcinv. cbn [this Q2Qc].
  rewrite !Qred_correct.
  change (0%Qc : Q) with 0%Q. change (1%Qc : Q) with 1%Q.
  assert (Ha : (0 < inject_Z a)%Q) by (unfold Qlt; simpl; lia).
  change (inject_Z e * / inject_Z a)%Q with (inject_Z e / inject_Z a)%Q.
  split.
  - apply Qlt_shift_div_l; [assumption|]. unfold Qlt; simpl; lia.
  - apply Qle_shift_div_r; [assumption|]. rewrite Qmult_1_l.
    unfold Qle; simpl; lia.
Qed.

Lemma Qc_ratio_lt_1 (e a : Z) :
  1 <= e < a -> (Q2Qc (inject_Z e) / Q2Qc (inject_Z a) < 1)%Qc.
Proof.
  intros He. unfold Qclt, Qcle, Qcdiv, Qcmult, Qcinv. cbn [this Q2Qc].
  rewrite !Qred_correct.
  change (1%Qc : Q) with 1%Q.
  assert (Ha : (0 < inject_Z a)%Q) by (unfold Qlt; simpl; lia).
  change (inject_Z e * / inject_Z a)%Q with (inject_Z e / inject_Z a)%Q.
  apply Qlt_shift_div_r; [assumption|]. rewrite Qmult_1_l.
  unfold Qlt; simpl; lia.
Qed.

Lemma Qc_complement_unit (h : Qc) :
  (0 <= h)%Qc /\ (h <= 1)%Qc -> (0 <= 1 - h)%Qc /\ (1 - h <= 1)%Qc.
Proof.
  intros [H0 H1]. split.
  - unfold Qcminus. now apply Qcle_minus_iff in H1.
  - unfold Qcminus. rewrite <- (Qcplus_0_r 1) at 2.
    apply Qcplus_le_compat; [apply Qcle_refl|].
    apply Qcopp_le_compat in H0. exact H0.
Qed.

Lemma Qc_complement_pos (h : Qc) : (h < 1 -> 0 < 1 - h)%Qc.
Proof. intros H1. unfold Qcminus. now apply Qclt_minus_iff in H1. Qed.

Lemma Qc_mult_unit (s f : Qc) :
  (0 <= s)%Qc -> (0 <= f)%Qc /\ (f <= 1)%Qc ->
  (0 <= s * f)%Qc /\ (s * f <= s)%Qc.
Proof.
  intros Hs [Hf0 Hf1]. split.
  - rewrite <- (Qcmult_0_l f). now apply Qcmult_le_compat_r.
  - rewrite Qcmult_comm. rewrite <- (Qcmult_1_l s) at 2.
    now apply Qcmult_le_compat_r.
Qed.

Lemma Qc_mult_pos (s f : Qc) : (0 < s -> 0 < f -> 0 < s * f)%Qc.
Proof.
  intros Hs Hf. rewrite <- (Qcmult_0_l f). now apply Qcmult_lt_compat_r.
Qed.

Lemma Qc_plus_nonneg (a h : Qc) : (0 <= h -> a <= a + h)%Qc.
Proof.
  intros Hh. rewrite <- (Qcplus_0_r a) at 1.
  apply Qcplus_le_compat; [apply Qcle_refl|assumption].
Qed.

Lemma accumulate_unit {A : Type} (op : A -> A -> A) (e : A) (xs : list A) :
  (forall x, op e x = x) -> accumulate op xs = accumulate_from op e xs.
Proof.
  intros He. destruct xs as [|x t]; [reflexivity|].
  cbn [accumulate accumulate_from]. now rewrite He.
Qed.

Lemma running_sums_sorted (a : Qc) (xs : list Qc) :
  Forall (Qcle 0) xs ->
  Forall (Qcle a) (accumulate_from Qcplus a xs)
  /\ StronglySorted Qcle (accumulate_from Qcplus a xs).
Proof.
  intros Hxs. revert a. induction Hxs as [|x t Hx _ IH]; intros a.
  - split; constructor.
  - cbn [accumulate_from]. destruct (IH (a + x)%Qc) as [Hall Hs].
    pose proof (Qc_plus_nonneg a x Hx) as Hax.
    split; constructor; try assumption.
    eapply Forall_impl; [|exact Hall].
    intros s Hsx. now apply Qcle_trans with (a + x)%Qc.
Qed.

Lemma km_factor_unit (r : Row) :
  row_ok r -> 1 <= events r ->
  (0 <= km_factor r)%Qc /\ (km_factor r <= 1)%Qc.
Proof.
  intros [[_ He] [_ Ha]] Hev. apply Qc_complement_unit.
  destruct (Qc_ratio_bounds (events r) (at_risk r)) as [H0 H1]; [lia|].
  split; [now apply Qclt_le_weak|assumption].
Qed.

Lemma km_factor_pos (r : Row) :
  1 <= events r < at_risk r -> (0 < km_factor r)%Qc.
Proof.
  intros He. apply Qc_complement_pos. now apply Qc_ratio_lt_1.
Qed.

Lemma running_products_bounds (rows : list Row) (a : Qc) :
  StronglySorted row_before rows ->
  Forall (fun r => row_ok r /\ 1 <= events r) rows ->
  (0 < a)%Qc ->
  Forall (fun s => (0 <= s)%Qc /\ (s <= a)%Qc)
         (accumulate_from Qcmult a (map km_factor rows))
  /\ StronglySorted (fun x y => (y <= x)%Qc)
                    (accumulate_from Qcmult a (map km_factor rows))
  /\ Forall (fun s => (0 < s)%Qc)
            (removelast (accumulate_from Qcmult a (map km_factor rows))).
Proof.
  intros Hs. revert a. induction Hs as [|r t Hs IH Hall]; intros a Hok Ha.
  - repeat split; constructor.
  - inversion Hok as [|? ? [Hr Hev] Hok']; subst.
    destruct (km_factor_unit r Hr Hev) as [Hf0 Hf1].
    destruct (Qc_mult_unit a (km_factor r) (Qclt_le_weak _ _ Ha) (conj Hf0 Hf1))
      as [Hp0 Hp1].
    destruct t as [|r' t'].
    + cbn [map accumulate_from removelast].
      repeat split; repeat constructor; assumption.
    + assert (Hpos : (0 < a * km_factor r)%Qc).
      { apply Qc_mult_pos; [assumption|]. apply km_factor_pos.
        inversion Hall as [|? ? [_ Hstep] _]; subst.
        inversion Hok' as [|? ? [[_ [Hn' Ha']] _] _]; subst.
        destruct Hr as [[_ He] _]. lia. }
      destruct (IH (a * km_factor r)%Qc Hok' Hpos) as [Hb [Hsorted Hlast]].
      change (accumulate_from Qcmult a (map km_factor (r :: r' :: t')))
        with ((a * km_factor r)%Qc
              :: accumulate_from Qcmult (a * km_factor r)%Qc
                                 (map km_factor (r' :: t'))).
      repeat split.
      * constructor; [now split|].
        eapply Forall_impl; [|exact Hb]. intros s [Hs0 Hs1].
        split; [assumption|]. now apply Qcle_trans with (a * km_factor r)%Qc.
      * constructor; [assumption|].
        eapply Forall_impl; [|exact Hb]. intros s [_ Hs1]. exact Hs1.
      * change (removelast
                  ((a * km_factor r)%Qc
                   :: accumulate_from Qcmult (a * km_factor r)%Qc
                                      (map km_factor (r' :: t'))))
          with ((a * km_factor r)%Qc
                :: removelast
                     (accumulate_from Qcmult (a * km_factor r)%Qc
                                      (map km_factor (r' :: t')))).
        constructor; assumption.
Qed.

Lemma at_risk_decreasing (rows : list Row) :
  StronglySorted row_before rows -> Forall row_ok rows ->
  StronglySorted (fun a b => b < a) (map at_risk rows).
Proof.
  induction 1 as [|r t Hs IH Hall]; intros Hok; [constructor|].
  inversion Hok as [|? ? Hr Hok']; subst.
  cbn [map]. constructor; [now apply IH|].
  rewrite Forall_map. rewrite Forall_forall in *.
  intros r' Hr'. destruct (Hall r' Hr') as [_ Hstep].
  destruct Hr as [_ [Hn _]]. lia.
Qed.

Section ExactFacts.
Context {D : Type} (bucket : D -> Z) (durations : list (Duration D)).

Lemma survival_rows_ok : Forall row_ok (survival bucket durations).
Proof.
  eapply Forall_impl; [|apply survival_ok]. intros r Hr; apply Hr.
Qed.

Lemma hazard_unit_interval :
  Forall (fun h => (0 <= h)%Qc /\ (h <= 1)%Qc)
         (hazard (R := Qc) bucket durations).
Proof.
  rewrite hazard_rows, Forall_map.
  eapply Forall_impl; [|apply survival_ok].
  intros r [[[_ He] [_ Ha]] Hev].
  destruct (Qc_ratio_bounds (events r) (at_risk r)) as [H0 H1]; [lia|].
  split; [now apply Qclt_le_weak|assumption].
Qed.

Lemma survival_proba_factors :
  survival_proba (R := Qc) bucket durations
  = accumulate_from Qcmult 1%Qc (map km_factor (survival bucket durations)).
Proof.
  unfold survival_proba, inverse_hazard.
  rewrite hazard_rows, map_map.
  apply accumulate_unit, Qcmult_1_l.
Qed.

Lemma cumulative_hazard_from_zero :
  cumulative_hazard (R := Qc) bucket durations
  = accumulate_from Qcplus 0%Qc (hazard (R := Qc) bucket durations).
Proof. apply accumulate_unit, Qcplus_0_l. Qed.

End ExactFacts.

Lemma survival_keys_ascending {D : Type} (bucket : D -> Z)
    (durations : list (Duration D)) :
  StronglySorted Z.lt (map bucket_key (survival bucket durations)).
Proof.
  apply StronglySorted_map.
  eapply StronglySorted_impl; [|apply survival_sorted].
  intros x y Hxy; apply Hxy.
Qed.

(** * The claims about the estimators *)

(** C1. In every arithmetic (exact or binary64), for every bucket function
    and all records, the survival estimate at position [i] of the surviving
    rows is the running product, in ascending order of the bucket, of
    [1 - events[j] / at_risk[j]] over the positions [j <= i]; the surviving
    rows are in strictly ascending order of the bucket key; and every one of
    them has at least one event and [at_risk > 0], so no ratio divides by
    zero. *)
Theorem survival_proba_is_running_product {R : Type} `{Arith R} {D : Type}
    (bucket : D -> Z) (durations : list (Duration D)) :
  survival_proba bucket durations
  = map (running rmul
           (fun j =>
              rsub (of_int 1)
                (rdiv
                   (of_int (nth j (map events (survival bucket durations)) 0))
                   (of_int (nth j (map at_risk (survival bucket durations)) 0)))))
        (seq 0 (length (survival bucket durations)))
  /\ StronglySorted Z.lt (map bucket_key (survival bucket durations))
  /\ Forall (fun r => 1 <= events r /\ 0 < at_risk r)
            (survival bucket durations).
Proof.
  split; [apply survival_proba_running|].
  split; [apply survival_keys_ascending|].
  eapply Forall_impl; [|apply survival_ok].
  intros r [[_ [Hn Ha]] He]. lia.
Qed.

(** C5. Scenario A: seven records with durations 1,1,2,3,3,3,4, the fourth
    one censored, and the identity as bucket function.  The frame has the
    buckets 1..4 with (at_risk, num_obs, events) = (7,2,2), (5,1,1), (4,3,2),
    (1,1,1); the censored count at bucket 3 is 4 - 1 - 2 = 1; and the survival
    estimate after bucket 4 is (1-2/7)(1-1/5)(1-2/4)(1-1/1) = 0, in exact
    rationals and in binary64. *)
Theorem scenario_A_life_table :
  survival_all (fun d => d) scenario_A
  = [mkRow 1 7 2 2; mkRow 2 5 1 1; mkRow 3 4 3 2; mkRow 4 1 1 1]
  /\ survival (fun d => d) scenario_A = survival_all (fun d => d) scenario_A
  /\ nth 2 (censored (fun d => d) scenario_A) 0 = 4 - 1 - 2
  /\ nth 2 (censored (fun d => d) scenario_A) 0 = 1
  /\ nth 3 (survival_proba (R := Qc) (fun d => d) scenario_A) (of_int 1)
     = ((1 - of_int 2 / of_int 7) * (1 - of_int 1 / of_int 5)
        * (1 - of_int 2 / of_int 4) * (1 - of_int 1 / of_int 1))%Qc
  /\ nth 3 (survival_proba (R := Qc) (fun d => d) scenario_A) (of_int 1) = 0%Qc
  /\ nth 3 (survival_proba (R := float) (fun d => d) scenario_A) (of_int 1)
     = 0%float.
Proof.
  repeat split; try reflexivity; apply Qc_is_canon; reflexivity.
Qed.

(** C4. In every arithmetic, the cumulative hazard at position [i] of the
    surviving rows is the running sum of [events[j] / at_risk[j]] over the
    positions [j <= i]; the rows are in strictly ascending order of the bucket
    key, the order the survival estimate runs in; and in exact rationals the
    cumulative hazard never decreases and is nowhere negative. *)
Theorem cumulative_hazard_is_running_sum {D : Type} (bucket : D -> Z)
    (durations : list (Duration D)) :
  (forall (R : Type) (AR : Arith R),
     cumulative_hazard (R := R) bucket durations
     = map (running radd
              (fun j =>
                 rdiv
                   (of_int (nth j (map events (survival bucket durations)) 0))
                   (of_int (nth j (map at_risk (survival bucket durations)) 0))))
           (seq 0 (length (survival bucket durations))))
  /\ StronglySorted Z.lt (map bucket_key (survival bucket durations))
  /\ non_decreasing Qcle (cumulative_hazard (R := Qc) bucket durations)
  /\ Forall (Qcle 0) (cumulative_hazard (R := Qc) bucket durations).
Proof.
  split; [intros R AR; apply cumulative_hazard_running|].
  split; [apply survival_keys_ascending|].
  rewrite cumulative_hazard_from_zero.
  destruct (running_sums_sorted 0%Qc (hazard (R := Qc) bucket durations))
    as [Hall Hs]; [|split; assumption].
  eapply Forall_impl; [|apply hazard_unit_interval]. intros h Hh; apply Hh.
Qed.

(** C6, as the code has it.  Down the life table the at-risk count never
    increases and the survival estimate never increases; the estimate lies in
    the closed interval [0,1] at every row, and is strictly positive at every
    row but possibly the last. *)
Theorem at_risk_and_survival_monotone {D : Type} (bucket : D -> Z)
    (durations : list (Duration D)) :
  non_increasing Z.le (map at_risk (survival bucket durations))
  /\ non_increasing Qcle (survival_proba (R := Qc) bucket durations)
  /\ Forall (fun s => (0 <= s)%Qc /\ (s <= 1)%Qc)
            (survival_proba (R := Qc) bucket durations)
  /\ Forall (fun s => (0 < s)%Qc)
            (removelast (survival_proba (R := Qc) bucket durations)).
Proof.
  split.
  - eapply StronglySorted_impl;
      [|apply at_risk_decreasing; [apply survival_sorted|apply survival_rows_ok]].
    intros a b Hab; simpl in Hab; lia.
  - rewrite survival_proba_factors.
    destruct (running_products_bounds (survival bucket durations) 1%Qc)
      as [Hb [Hs Hpos]];
      [apply survival_sorted|apply survival_ok|reflexivity|].
    repeat split; assumption.
Qed.

(** C6, as the specification has it, fails on Scenario A: the estimate after
    bucket 4 is 0, which is not strictly positive. *)
Lemma survival_proba_not_strictly_positive :
  ~ (non_increasing Z.le (map at_risk (survival (fun d => d) scenario_A))
     /\ non_increasing Qcle
          (survival_proba (R := Qc) (fun d => d) scenario_A)
     /\ Forall (fun s => (0 < s)%Qc /\ (s <= 1)%Qc)
               (survival_proba (R := Qc) (fun d => d) scenario_A)).
Proof.
  intros [_ [_ Hall]]. rewrite Forall_forall in Hall.
  destruct (Hall 0%Qc) as [Hlt _].
  - assert (E : nth 3 (survival_proba (R := Qc) (fun d => d) scenario_A) 1%Qc
                = 0%Qc) by (apply Qc_is_canon; reflexivity).
    rewrite <- E. apply nth_In. vm_compute. lia.
  - discriminate Hlt.
Qed.

(** The same row in binary64: the last factor is [1 - 1/1 = 0], and the
    running product is exactly zero. *)
Lemma survival_proba_binary64_reaches_zero :
  survival_proba (R := float) (fun d => d) [mkDuration 1 true] = [0%float]
  /\ PrimFloat.ltb 0%float
       (nth 3 (survival_proba (R := float) (fun d => d) scenario_A) 1%float)
     = false.
Proof. split; reflexivity. Qed.

(** * The aggregation run on its own log

    Auxiliary facts for the runs in which the module-level frame is the log
    itself, as in the script. *)

Lemma idxmin_from_in (best : nat * Z) (rows : list (nat * Z)) :
  In (idxmin_from best rows) (fst best :: map fst rows).
Proof.
  revert best; induction rows as [|r t IH]; intros best; [now left|].
  cbn [idxmin_from map]. specialize (IH (if snd r <? snd best then r else best)).
  destruct (snd r <? snd best); destruct IH as [<-|Hin]; simpl; auto.
Qed.

Lemma idxmin_in (rows : list (nat * Z)) (l : nat) :
  idxmin rows = Some l -> In l (map fst rows).
Proof.
  destruct rows as [|r t]; [discriminate|].
  intros [= <-]. apply idxmin_from_in.
Qed.

Lemma combine_seq_nth (frame : DataFrame) (s l : nat) (r : Event) :
  In (l, r) (combine (seq s (length frame)) frame) ->
  (s <= l)%nat /\ nth_error frame (l - s) = Some r.
Proof.
  revert s; induction frame as [|e t IH]; intros s; [intros []|].
  cbn [length seq combine]. intros [[= <- <-]|Hin].
  - split; [lia|]. now rewrite Nat.sub_diag.
  - destruct (IH (S s) Hin) as [Hle Hnth]. split; [lia|].
    replace (l - s)%nat with (S (l - S s)) by lia. exact Hnth.
Qed.

Lemma with_index_nth (frame : DataFrame) (l : nat) (r : Event) :
  In (l, r) (with_index frame) -> nth_error frame l = Some r.
Proof.
  intros Hin. apply combine_seq_nth in Hin. destruct Hin as [_ Hnth].
  now rewrite Nat.sub_0_r in Hnth.
Qed.

Lemma sorted_unique (ks : list Z) : StronglySorted Z.lt ks -> unique ks = true.
Proof.
  induction 1 as [|k t Hs IH Hall]; [reflexivity|].
  cbn [unique]. rewrite IH, andb_true_r. apply negb_true_iff.
  apply not_true_is_false. intros Hex. apply existsb_exists in Hex.
  destruct Hex as [x [Hx Heq]]. apply Z.eqb_eq in Heq. subst x.
  rewrite Forall_forall in Hall. specialize (Hall k Hx). lia.
Qed.

Section OwnLog.
Variables (log : DataFrame) (endpoints : list string).

Lemma zip_with_units {A B C : Type} (f : Z * A -> B -> C) (g : Z -> A)
    (h : Z -> B) (us : list Z) :
  zip_with f (map (fun u => (u, g u)) us) (map h us)
  = map (fun u => f (u, g u) (h u)) us.
Proof.
  induction us as [|u t IH]; simpl; [reflexivity|]. now rewrite IH.
Qed.

End OwnLog.

(** * The claims about the aggregation of an event log *)

Local Open Scope string_scope.

(** C9, as the code has it.  A log of a single event, read both as the
    argument and as the module-level frame, gives exactly one record; its
    entry time and final observation time are the event's timestamp and its
    duration is 0.  The endpoint is observed, with the event's timestamp as
    endpoint time, exactly when the type of the event is one of the endpoint
    types; otherwise the endpoint and its time are missing. *)
Theorem single_event_log (ev : Event) (endpoints : list string) :
  exists r,
    events_to_durations [ev] [ev] endpoints = inr [r]
    /\ unit_id r = visitorid ev
    /\ entry_time r = Some (timestamp ev)
    /\ final_obs_time r = Some (timestamp ev)
    /\ duration r = Some 0%Z
    /\ endpoint_observed_of r = isin (event ev) endpoints
    /\ endpoint_time r
       = (if isin (event ev) endpoints then Some (timestamp ev) else None)
    /\ endpoint r
       = (if isin (event ev) endpoints then Some (event ev) else None).
Proof.
  destruct ev as [u t e].
  unfold events_to_durations, aggregate, endpoint_events, df_endpoint_rows,
    entry_times, units, with_index, record_of, censoring_time.
  cbn -[isin Z.sub]. rewrite Z.eqb_refl.
  destruct (isin e endpoints); cbn -[Z.sub]; rewrite ?Z.eqb_refl;
    cbn -[Z.sub]; rewrite ?Z.eqb_refl; cbn -[Z.sub]; rewrite Z.sub_diag;
    eexists; (split; [reflexivity|]); repeat split.
Qed.

(** C9, as the specification has it, fails on a single event that is not an
    endpoint: the one record has no endpoint time and its endpoint is not
    observed. *)
Lemma single_view_event_is_censored :
  ~ (exists r,
        events_to_durations [mkEvent 1 5 "view"] [mkEvent 1 5 "view"]
                            ["transaction"] = inr [r]
        /\ entry_time r = Some 5%Z /\ endpoint_time r = Some 5%Z
        /\ final_obs_time r = Some 5%Z /\ duration r = Some 0%Z
        /\ endpoint_observed_of r = true).
Proof.
  intros [r [Hr [_ [Het _]]]]. vm_compute in Hr.
  injection Hr as <-. discriminate Het.
Qed.

(** C8, as the code has it.  Neither stage tests for empty input: on an empty
    log the aggregation returns an empty table, and on an empty collection of
    records every column of the life table is empty. *)
Theorem empty_input_gives_empty_tables :
  (forall endpoints,
      events_to_durations [] [] endpoints = inr []
      /\ forall data, events_to_conversions [] data endpoints = inr [])
  /\ (forall (D : Type) (bucket : D -> Z),
         survival_all bucket [] = []
         /\ survival bucket [] = []
         /\ censored bucket [] = []
         /\ forall (R : Type) (AR : Arith R),
             survival_proba (R := R) bucket [] = []
             /\ cumulative_hazard (R := R) bucket [] = []).
Proof.
  split; [intros endpoints; split; [|intros data]; reflexivity|].
  intros D bucket. repeat split; reflexivity.
Qed.

(** C8, as the specification has it, fails: the aggregation of an empty log
    does not end in an error, and the life table of an empty collection of
    records is returned, empty. *)
Lemma empty_input_is_not_rejected :
  ~ (exists e, events_to_durations [] [] ["transaction"] = inl e)
  /\ survival (fun d : Z => d) [] = []
  /\ survival_proba (R := Qc) (fun d : Z => d) [] = [].
Proof.
  split; [intros [e He]; discriminate He|]. split; reflexivity.
Qed.

(** C7.  The result of the aggregation depends on the module-level frame
    [df]: with the same log and the same endpoint types, two frames give two
    different tables; and [events_to_conversions] never reads the log it is
    given. *)
Theorem aggregation_reads_module_level_frame :
  events_to_durations [mkEvent 1 5 "transaction"] [mkEvent 1 5 "transaction"]
                      ["transaction"]
  = inr [ mkDurationRecord 1 (Some 5%Z) (Some "transaction") (Some 5%Z)
                           (Some 5%Z) (Some 0%Z) ]
  /\ events_to_durations [mkEvent 1 9 "transaction"] [mkEvent 1 5 "transaction"]
                         ["transaction"]
     = inr [ mkDurationRecord 1 (Some 5%Z) (Some "transaction") (Some 9%Z)
                              (Some 9%Z) (Some 4%Z) ]
  /\ events_to_durations [] [mkEvent 1 5 "transaction"] ["transaction"]
     = inl IndexError
  /\ events_to_conversions [mkEvent 1 9 "transaction"]
                           [mkEvent 1 5 "transaction"] ["transaction"]
     = inr [ mkDurationRecord 1 (Some 9%Z) (Some "transaction") (Some 9%Z)
                              (Some 9%Z) (Some 0%Z) ]
  /\ (forall df data1 data2 conversion_events,
         events_to_conversions df data1 conversion_events
         = events_to_conversions df data2 conversion_events).
Proof. repeat split; reflexivity. Qed.

(** * Further properties of the life table *)

Local Open Scope Z_scope.

Section CountFacts.
Context {A : Type}.

Lemma count_if_cons (p : A -> bool) (a : A) (l : list A) :
  count_if p (a :: l) = Z.b2z (p a) + count_if p l.
Proof.
  unfold count_if; simpl. destruct (p a); simpl length; cbn [Z.b2z]; lia.
Qed.

Lemma count_if_nonneg (p : A -> bool) (l : list A) : 0 <= count_if p l.
Proof. unfold count_if; lia. Qed.

Lemma count_if_ext_in (p q : A -> bool) (l : list A) :
  (forall a, In a l -> p a = q a) -> count_if p l = count_if q l.
Proof.
  intros Hpq. unfold count_if. now rewrite (filter_ext_in p q l Hpq).
Qed.

Lemma count_if_pos (p : A -> bool) (l : list A) :
  1 <= count_if p l <-> exists a, In a l /\ p a = true.
Proof.
  induction l as [|x t IH].
  - split; [unfold count_if; simpl; lia|intros [a [[] _]]].
  - rewrite count_if_cons. pose proof (count_if_nonneg p t) as Hn.
    destruct (p x) eqn:Hx; cbn [Z.b2z].
    + split; [intros _; exists x; split; [now left|assumption]|lia].
    + rewrite Z.add_0_l, IH. split.
      * intros [a [Ha Hp]]. exists a. split; [now right|assumption].
      * intros [a [[<-|Ha] Hp]]; [congruence|]. now exists a.
Qed.

Lemma count_if_split (p q : A -> bool) (l : list A) :
  count_if p l
  = count_if (fun a => p a && q a) l + count_if (fun a => p a && negb (q a)) l.
Proof.
  induction l as [|x t IH]; [reflexivity|]. rewrite !count_if_cons, IH.
  destruct (p x), (q x); cbn [andb negb Z.b2z]; lia.
Qed.

Lemma count_if_map {B : Type} (f : A -> B) (p : B -> bool) (l : list A) :
  count_if p (map f l) = count_if (fun a => p (f a)) l.
Proof. unfold count_if. now rewrite <- length_filter_map. Qed.

End CountFacts.

Lemma count_is_count_if (p : Z -> bool) (col : list Z) :
  count p col = count_if p col.
Proof. reflexivity. Qed.

Lemma sum_b2z_count (l : list (Z * bool)) :
  sum_list (map (fun r => Z.b2z (snd r)) l) = count_if snd l.
Proof.
  induction l as [|[x b] t IH]; [reflexivity|].
  rewrite count_if_cons. cbn [map sum_list fold_right snd].
  unfold sum_list in IH. rewrite IH. reflexivity.
Qed.

Lemma count_if_filter {A : Type} (p q : A -> bool) (l : list A) :
  count_if q (filter p l) = count_if (fun a => p a && q a) l.
Proof.
  induction l as [|x t IH]; [reflexivity|]. cbn [filter].
  rewrite count_if_cons. destruct (p x); cbn [andb Z.b2z].
  - now rewrite count_if_cons, IH.
  - now rewrite IH.
Qed.

Section RowFacts.
Context {D : Type} (bucket : D -> Z) (durations : list (Duration D)).

Lemma num_obs_direct (k : Z) :
  count (fun x => x =? k) (map fst (bucketed bucket durations))
  = count_if (fun d => bucket_of bucket d =? k) durations.
Proof.
  unfold bucketed. rewrite map_map. cbn [fst].
  rewrite count_is_count_if. apply (count_if_map (bucket_of bucket)).
Qed.

Lemma events_at_direct (k : Z) :
  events_at bucket durations k
  = count_if (fun d => (bucket_of bucket d =? k) && endpoint_observed d)
             durations.
Proof.
  unfold events_at. rewrite sum_b2z_count. unfold grp_get.
  rewrite count_if_filter. unfold bucketed.
  exact (count_if_map (fun r => (bucket (duration_days r), endpoint_observed r))
                      (fun a => (fst a =? k) && snd a) durations).
Qed.

Lemma in_survival (r : Row) :
  In r (survival bucket durations)
  <-> In (bucket_key r) (grp_keys bucket durations)
      /\ r = row_of bucket durations (bucket_key r)
      /\ 1 <= events r.
Proof.
  unfold survival. rewrite filter_In, survival_all_rows, in_map_iff. split.
  - intros [[k [<- Hk]] Hev]. apply Z.ltb_lt in Hev.
    repeat split; [assumption|lia].
  - intros [Hk [Hr Hev]]. split; [now exists (bucket_key r)|].
    apply Z.ltb_lt. lia.
Qed.

Lemma in_grp_keys (k : Z) :
  In k (grp_keys bucket durations)
  <-> exists d, In d durations /\ bucket_of bucket d = k.
Proof.
  unfold grp_keys, bucketed. rewrite in_group_keys, map_map. cbn [fst].
  rewrite in_map_iff. split; intros [d [H1 H2]]; exists d; auto.
Qed.

End RowFacts.

(** X1. Every row of the life table carries the counts of its bucket: the
    number of records in the bucket, the number of those with the endpoint
    observed (at least one), and at risk the number of records in this or a
    later bucket.  The buckets with a row are exactly the buckets of the
    records whose endpoint was observed. *)
Theorem life_table_rows_are_bucket_counts {D : Type} (bucket : D -> Z)
    (durations : list (Duration D)) :
  Forall
    (fun r =>
       num_obs r
       = count_if (fun d => bucket_of bucket d =? bucket_key r) durations
       /\ events r
          = count_if (fun d => (bucket_of bucket d =? bucket_key r)
                               && endpoint_observed d) durations
       /\ at_risk r
          = count_if (fun d => bucket_key r <=? bucket_of bucket d) durations
       /\ 1 <= events r)
    (survival bucket durations)
  /\ forall k,
      In k (map bucket_key (survival bucket durations))
      <-> exists d,
            In d durations /\ bucket_of bucket d = k
            /\ endpoint_observed d = true.
Proof.
  split.
  - apply Forall_forall. intros r Hr. apply in_survival in Hr.
    destruct Hr as [_ [Hr Hev]]. split; [|split; [|split; [|exact Hev]]].
    + rewrite Hr at 1. cbn [row_of num_obs]. apply num_obs_direct.
    + rewrite Hr at 1. cbn [row_of events]. apply events_at_direct.
    + rewrite Hr at 1. reflexivity.
  - intros k. rewrite in_map_iff. split.
    + intros [r [<- Hr]]. apply in_survival in Hr.
      destruct Hr as [_ [Hr Hev]].
      rewrite Hr in Hev. cbn [row_of events] in Hev.
      rewrite events_at_direct in Hev. apply count_if_pos in Hev.
      destruct Hev as [d [Hd Hp]]. apply andb_true_iff in Hp.
      destruct Hp as [Hk Ho]. apply Z.eqb_eq in Hk. now exists d.
    + intros [d [Hd [Hk Ho]]]. exists (row_of bucket durations k).
      split; [reflexivity|]. apply in_survival. cbn [row_of bucket_key events].
      split; [apply in_grp_keys; now exists d|]. split; [reflexivity|].
      rewrite events_at_direct. apply count_if_pos. exists d.
      split; [assumption|]. rewrite Ho, andb_true_r. now apply Z.eqb_eq.
Qed.

Lemma count_if_le_length {A : Type} (p : A -> bool) (l : list A) :
  count_if p l <= Z.of_nat (length l).
Proof.
  unfold count_if. pose proof (filter_length_le p l). lia.
Qed.

(** X2. Every row of the life table has
    [1 <= events <= num_obs <= at_risk <= num_subjects]; and from a row to any
    row below it the bucket key grows and the at-risk count drops by at least
    the row's number of observations, so the at-risk count strictly
    decreases. *)
Theorem life_table_row_invariants {D : Type} (bucket : D -> Z)
    (durations : list (Duration D)) :
  Forall
    (fun r =>
       1 <= events r <= num_obs r
       /\ num_obs r <= at_risk r <= num_subjects durations)
    (survival bucket durations)
  /\ StronglySorted
       (fun r1 r2 =>
          bucket_key r1 < bucket_key r2
          /\ at_risk r2 + num_obs r1 <= at_risk r1
          /\ at_risk r2 < at_risk r1)
       (survival bucket durations).
Proof.
  split.
  - apply Forall_forall. intros r Hr.
    pose proof (survival_ok bucket durations) as Hok.
    rewrite Forall_forall in Hok. destruct (Hok r Hr) as [[He [Hn Ha]] Hev].
    apply in_survival in Hr. destruct Hr as [_ [Hr _]].
    assert (Hat : at_risk r <= num_subjects durations).
    { rewrite Hr. cbn [row_of at_risk]. apply count_if_le_length. }
    lia.
  - pose proof (survival_sorted bucket durations) as Hs.
    pose proof (survival_rows_ok bucket durations) as Hok.
    induction Hs as [|r t Hs IH Hall]; [constructor|].
    inversion Hok as [|? ? [_ [Hn _]] Hok']; subst.
    constructor; [now apply IH|].
    eapply Forall_impl; [|exact Hall]. intros r' [Hk Hstep]. lia.
Qed.

Lemma sum_sizes_cover (col ks : list Z) :
  StronglySorted Z.lt ks -> (forall x, In x col -> In x ks) ->
  sum_list (map (fun k => count (fun x => x =? k) col) ks)
  = Z.of_nat (length col).
Proof.
  intros Hs Hcov. destruct ks as [|k t].
  - destruct col as [|c col]; [reflexivity|]. destruct (Hcov c (or_introl eq_refl)).
  - rewrite sum_sizes_from; [|assumption|intros x Hx _; now apply Hcov].
    unfold count. f_equal. f_equal.
    rewrite <- (filter_ext_in (fun _ => true)).
    + clear. induction col as [|c col IH]; simpl; congruence.
    + intros x Hx. symmetry. apply Z.leb_le.
      destruct (Hcov x Hx) as [->|Hin]; [lia|].
      inversion Hs as [|? ? _ Hall]; subst. rewrite Forall_forall in Hall.
      specialize (Hall x Hin). lia.
Qed.

Lemma sum_filter_positive (f : Row -> Z) (rows : list Row) :
  Forall (fun r => 0 <= f r) rows ->
  sum_list (map f (filter (fun r => 0 <? f r) rows)) = sum_list (map f rows).
Proof.
  induction 1 as [|r t Hr _ IH]; [reflexivity|].
  cbn [filter map]. destruct (Z.ltb_spec 0 (f r)).
  - cbn [map]. unfold sum_list in *. cbn [fold_right]. now rewrite IH.
  - unfold sum_list in *. cbn [fold_right]. rewrite IH. lia.
Qed.

(** X3. Before the rows without events are dropped, the numbers of
    observations of the buckets add up to the number of records; and dropping
    those rows loses no event: the events of the life table add up to the
    number of records whose endpoint was observed. *)
Theorem life_table_totals {D : Type} (bucket : D -> Z)
    (durations : list (Duration D)) :
  sum_list (map num_obs (survival_all bucket durations))
  = num_subjects durations
  /\ sum_list (map events (survival bucket durations))
     = count_if endpoint_observed durations.
Proof.
  split.
  - rewrite survival_all_rows, map_map. cbn [row_of num_obs].
    rewrite <- grp_size_count. symmetry. apply num_subjects_total.
  - unfold survival. rewrite sum_filter_positive.
    + rewrite survival_all_rows, map_map. cbn [row_of events].
      rewrite (map_ext _ (fun k => count (fun x => x =? k)
                                    (map (bucket_of bucket)
                                         (filter endpoint_observed durations)))).
      * rewrite sum_sizes_cover; [now rewrite length_map| |].
        -- apply group_keys_sorted.
        -- intros x Hx. apply in_map_iff in Hx. destruct Hx as [d [<- Hd]].
           apply filter_In in Hd. apply in_grp_keys. exists d. tauto.
      * intros k. rewrite events_at_direct, count_is_count_if.
        rewrite (count_if_map (bucket_of bucket)), count_if_filter.
        apply count_if_ext_in. intros d _. apply andb_comm.
    + eapply Forall_impl; [|apply survival_all_ok]. intros r [[He _] _]. exact He.
Qed.



Section CensoredDirect.
Context {D : Type} (bucket : D -> Z).

Lemma censored_count_step (ds : list (Duration D)) (k : Z) (hi : option Z) :
  match hi with Some k' => k < k' | None => True end ->
  (forall d, In d ds -> endpoint_observed d = true -> k < bucket_of bucket d ->
             match hi with Some k' => k' <= bucket_of bucket d | None => False end) ->
  count_if (fun d => k <=? bucket_of bucket d) ds
  - match hi with
    | Some k' => count_if (fun d => k' <=? bucket_of bucket d) ds
    | None => 0
    end
  - count_if (fun d => (bucket_of bucket d =? k) && endpoint_observed d) ds
  = censored_between bucket ds k hi.
Proof.
  intros Hk Hobs. unfold censored_between.
  induction ds as [|d t IH].
  - destruct hi; reflexivity.
  - specialize (IH (fun x Hx => Hobs x (or_intror Hx))).
    specialize (Hobs d (or_introl eq_refl)).
    rewrite !count_if_cons.
    destruct hi as [k'|]; rewrite ?count_if_cons;
      destruct (endpoint_observed d);
      destruct (Z.leb_spec k (bucket_of bucket d));
      destruct (Z.eqb_spec (bucket_of bucket d) k);
      try destruct (Z.leb_spec k' (bucket_of bucket d));
      try destruct (Z.ltb_spec (bucket_of bucket d) k');
      cbn [andb negb Z.b2z]; try lia;
      try (assert (k < bucket_of bucket d) as Hlt by lia;
           specialize (Hobs eq_refl Hlt); lia).
Qed.

Lemma censored_rows_direct (ds : list (Duration D)) (rows : list Row) :
  StronglySorted row_before rows ->
  Forall
    (fun r =>
       at_risk r = count_if (fun d => bucket_key r <=? bucket_of bucket d) ds
       /\ events r
          = count_if (fun d => (bucket_of bucket d =? bucket_key r)
                               && endpoint_observed d) ds)
    rows ->
  (forall d, In d ds -> endpoint_observed d = true ->
             match rows with
             | [] => True
             | r0 :: _ => bucket_key r0 <= bucket_of bucket d ->
                          In (bucket_of bucket d) (map bucket_key rows)
             end) ->
  censored_rows rows = censored_direct bucket ds (map bucket_key rows).
Proof.
  induction 1 as [|r t Hs IH Hall]; intros Hrows Hobs; [reflexivity|].
  inversion Hrows as [|? ? [Ha He] Hrows']; subst.
  cbn [censored_rows map censored_direct]. f_equal.
  - rewrite Ha, He. destruct t as [|r' t'].
    + cbn [map hd_error].
      rewrite <- (censored_count_step ds (bucket_key r) None); [lia|exact I|].
      intros d Hd Ho Hlt. specialize (Hobs d Hd Ho). cbn [map] in Hobs.
      destruct Hobs as [Heq|[]]; lia.
    + inversion Hrows' as [|? ? [Ha' _] _]; subst.
      inversion Hall as [|? ? [Hkk _] Hall']; subst.
      cbn [map hd_error]. rewrite Ha'.
      apply (censored_count_step ds (bucket_key r) (Some (bucket_key r')));
        [exact Hkk|].
      intros d Hd Ho Hlt. specialize (Hobs d Hd Ho). cbn [map] in Hobs.
      destruct Hobs as [Heq|[Heq|Hin]]; [lia|lia|lia|].
      apply in_map_iff in Hin. destruct Hin as [x [Hx Hin]].
      inversion Hs as [|? ? _ Hall'']; subst.
      rewrite Forall_forall in Hall''. destruct (Hall'' x Hin) as [Hlt' _]. lia.
  - apply IH; [assumption|]. intros d Hd Ho. destruct t as [|r' t']; [exact I|].
    intros Hle. specialize (Hobs d Hd Ho).
    inversion Hall as [|? ? [Hkk _] _]; subst.
    destruct Hobs as [Heq|Hin]; [lia|cbn [map] in Heq; lia|exact Hin].
Qed.

End CensoredDirect.

(** X5. The censored count of a row is the number of censored records in the
    buckets from the row's own up to the next row's, that one excluded, and
    for the last row in all buckets from its own on: the records censored in a
    bucket without events are counted in the row above. *)
Theorem censored_counts_censored_records {D : Type} (bucket : D -> Z)
    (durations : list (Duration D)) :
  censored bucket durations
  = censored_direct bucket durations
      (map bucket_key (survival bucket durations)).
Proof.
  rewrite censored_by_rows. apply censored_rows_direct.
  - apply survival_sorted.
  - apply Forall_forall. intros r Hr. apply in_survival in Hr.
    destruct Hr as [_ [Hr _]]. split.
    + rewrite Hr at 1. reflexivity.
    + rewrite Hr at 1. cbn [row_of events]. apply events_at_direct.
  - intros d Hd Ho.
    assert (Hin : In (bucket_of bucket d)
                     (map bucket_key (survival bucket durations))).
    { apply in_map_iff. exists (row_of bucket durations (bucket_of bucket d)).
      split; [reflexivity|]. apply in_survival. cbn [row_of bucket_key events].
      split; [apply in_grp_keys; now exists d|]. split; [reflexivity|].
      rewrite events_at_direct. apply count_if_pos. exists d.
      split; [assumption|]. now rewrite Ho, Z.eqb_refl. }
    destruct (survival bucket durations); [exact I|]. intros _. exact Hin.
Qed.

(** * Further properties of the estimators, in exact rationals *)

(** Inequalities between canonical rationals, read on their underlying
    fractions. *)
Ltac qc_to_q :=
  unfold Qclt, Qcle, Qcminus, Qcplus, Qcmult, Qcopp in *;
  cbn [this Q2Qc] in *;
  rewrite ?Qred_correct in *;
  change (this 1%Qc) with 1%Q in *;
  change (this 0%Qc) with 0%Q in *.

Lemma Qc_weierstrass_step (a b h : Qc) :
  (0 <= a)%Qc -> (a <= 1)%Qc -> (0 <= h)%Qc -> (1 - b <= a)%Qc ->
  (1 - (b + h) <= a * (1 - h))%Qc.
Proof. intros H0 H1 Hh Hb. qc_to_q. nra. Qed.

Lemma hazard_of_unit (r : Row) :
  row_ok r -> 1 <= events r ->
  (0 <= hazard_of r)%Qc /\ (hazard_of r <= 1)%Qc.
Proof.
  intros [[_ He] [_ Ha]] Hev.
  destruct (Qc_ratio_bounds (events r) (at_risk r)) as [H0 H1]; [lia|].
  split; [now apply Qclt_le_weak|assumption].
Qed.

Lemma survival_above_complement (rows : list Row) (a b : Qc) :
  Forall (fun r => row_ok r /\ 1 <= events r) rows ->
  (0 <= a)%Qc -> (a <= 1)%Qc -> (1 - b <= a)%Qc ->
  Forall2 (fun s c => (1 - c <= s)%Qc)
          (accumulate_from Qcmult a (map km_factor rows))
          (accumulate_from Qcplus b (map hazard_of rows)).
Proof.
  intros Hrows. revert a b.
  induction Hrows as [|r t [Hr Hev] _ IH]; intros a b H0 H1 Hb; [constructor|].
  destruct (hazard_of_unit r Hr Hev) as [Hh0 Hh1].
  destruct (km_factor_unit r Hr Hev) as [Hf0 Hf1].
  destruct (Qc_mult_unit a (km_factor r) H0 (conj Hf0 Hf1)) as [Hp0 Hp1].
  assert (Hstep : (1 - (b + hazard_of r) <= a * km_factor r)%Qc)
    by now apply Qc_weierstrass_step.
  cbn [map accumulate_from]. constructor; [exact Hstep|].
  apply IH; [assumption| |assumption].
  now apply Qcle_trans with a.
Qed.

(** X6. Row by row, the Kaplan-Meier survival estimate is at least one minus
    the Nelson-Aalen cumulative hazard: the estimated probability of the
    event never exceeds the cumulative hazard. *)
Theorem survival_at_least_one_minus_hazard {D : Type} (bucket : D -> Z)
    (durations : list (Duration D)) :
  Forall2 (fun s c => (1 - c <= s)%Qc)
          (survival_proba (R := Qc) bucket durations)
          (cumulative_hazard (R := Qc) bucket durations).
Proof.
  rewrite survival_proba_factors, cumulative_hazard_from_zero, hazard_rows.
  apply survival_above_complement;
    [apply survival_ok|discriminate|discriminate|discriminate].
Qed.

Lemma Qc_percent_antitone (x y : Qc) :
  (y <= x)%Qc -> (of_int 100 * (1 - x) <= of_int 100 * (1 - y))%Qc.
Proof.
  intros Hxy. cbn [of_int Arith_Qc]. qc_to_q.
  unfold inject_Z. lra.
Qed.

Lemma Qc_percent_bounds (x : Qc) :
  (0 <= x)%Qc /\ (x <= 1)%Qc ->
  (0 <= of_int 100 * (1 - x))%Qc
  /\ (of_int 100 * (1 - x) <= of_int 100)%Qc.
Proof.
  intros [H0 H1]. cbn [of_int Arith_Qc]. qc_to_q.
  unfold inject_Z. split; lra.
Qed.

(** X7. The conversion percentage of line 59 lies between 0 and 100 at every
    row and never decreases down the table. *)
Theorem conversion_pct_monotone {D : Type} (bucket : D -> Z)
    (durations : list (Duration D)) :
  Forall (fun c => (0 <= c)%Qc /\ (c <= of_int 100)%Qc)
         (conversion_pct (R := Qc) bucket durations)
  /\ non_decreasing Qcle (conversion_pct (R := Qc) bucket durations).
Proof.
  unfold conversion_pct. rewrite survival_proba_factors.
  destruct (running_products_bounds (survival bucket durations) 1%Qc)
    as [Hb [Hs _]];
    [apply survival_sorted|apply survival_ok|reflexivity|].
  split.
  - rewrite Forall_map. eapply Forall_impl; [|exact Hb].
    intros s Hs'. now apply Qc_percent_bounds.
  - apply StronglySorted_map.
    eapply StronglySorted_impl; [|exact Hs].
    intros x y Hxy. now apply Qc_percent_antitone.
Qed.

Lemma observed_bucket_in_survival {D : Type} (bucket : D -> Z)
    (durations : list (Duration D)) (d : Duration D) :
  In d durations -> endpoint_observed d = true ->
  In (bucket_of bucket d) (map bucket_key (survival bucket durations)).
Proof.
  intros Hd Ho. apply in_map_iff.
  exists (row_of bucket durations (bucket_of bucket d)).
  split; [reflexivity|]. apply in_survival. cbn [row_of bucket_key events].
  split; [apply in_grp_keys; now exists d|]. split; [reflexivity|].
  rewrite events_at_direct. apply count_if_pos. exists d.
  split; [assumption|]. now rewrite Ho, Z.eqb_refl.
Qed.

Lemma of_int_ratio_step (T n N : Z) :
  0 < T -> 0 < N ->
  (of_int T / of_int N * (1 - of_int n / of_int T))%Qc
  = (of_int (T - n) / of_int N)%Qc.
Proof.
  intros HT HN. apply Qc_is_canon. cbn [of_int Arith_Qc].
  unfold Qcdiv, Qcinv. qc_to_q.
  unfold Z.sub. rewrite inject_Z_plus, inject_Z_opp.
  assert (~ inject_Z T == 0)%Q by (unfold Qeq; simpl; lia).
  assert (~ inject_Z N == 0)%Q by (unfold Qeq; simpl; lia).
  field. split; assumption.
Qed.

Lemma of_int_ratio_one (N : Z) : 0 < N -> (of_int N / of_int N)%Qc = 1%Qc.
Proof.
  intros HN. apply Qcmult_inv_r. cbn [of_int Arith_Qc].
  intros H0. apply Q2Qc_eq_iff in H0. unfold Qeq in H0; simpl in H0. lia.
Qed.

Section WithoutCensoring.
Context {D : Type} (bucket : D -> Z).

Lemma count_above_split (ds : list (Duration D)) (k : Z) :
  count_if (fun d => k <=? bucket_of bucket d) ds
  - count_if (fun d => bucket_of bucket d =? k) ds
  = count_if (fun d => k <? bucket_of bucket d) ds.
Proof.
  induction ds as [|d t IH]; [reflexivity|]. rewrite !count_if_cons.
  destruct (Z.leb_spec k (bucket_of bucket d));
    destruct (Z.eqb_spec (bucket_of bucket d) k);
    destruct (Z.ltb_spec k (bucket_of bucket d)); cbn [Z.b2z]; lia.
Qed.

Lemma km_without_censoring_rows (ds : list (Duration D)) (N : Z)
    (rows : list Row) (a : Qc) :
  0 < N ->
  StronglySorted row_before rows ->
  Forall
    (fun r =>
       at_risk r = count_if (fun d => bucket_key r <=? bucket_of bucket d) ds
       /\ events r = count_if (fun d => bucket_of bucket d =? bucket_key r) ds
       /\ 1 <= at_risk r)
    rows ->
  (forall d, In d ds ->
             match rows with
             | [] => True
             | r0 :: _ => bucket_key r0 <= bucket_of bucket d ->
                          In (bucket_of bucket d) (map bucket_key rows)
             end) ->
  match rows with
  | [] => True
  | r0 :: _ => a = (of_int (at_risk r0) / of_int N)%Qc
  end ->
  Forall2
    (fun r s =>
       s = (of_int (count_if (fun d => bucket_key r <? bucket_of bucket d) ds)
            / of_int N)%Qc)
    rows (accumulate_from Qcmult a (map km_factor rows)).
Proof.
  intros HN Hs. revert a.
  induction Hs as [|r t Hs IH Hall]; intros a Hrows Hin; [constructor|].
  inversion Hrows as [|? ? [Hat [Hev Hpos]] Hrows']; subst. intros Ha.
  assert (Hhead : (a * km_factor r)%Qc
                  = (of_int (count_if (fun d => bucket_key r <? bucket_of bucket d)
                                      ds) / of_int N)%Qc).
  { rewrite Ha. unfold km_factor. rewrite of_int_ratio_step by lia.
    now rewrite Hat, Hev, count_above_split. }
  cbn [map accumulate_from]. constructor; [exact Hhead|].
  apply IH; [assumption| |].
  - intros d Hd. destruct t as [|r' t']; [exact I|]. intros Hle.
    inversion Hall as [|? ? [Hkk _] _]; subst.
    destruct (Hin d Hd) as [Heq|Hin']; [lia|cbn [map] in Heq; lia|exact Hin'].
  - destruct t as [|r' t']; [exact I|]. rewrite Hhead.
    inversion Hrows' as [|? ? [Hat' _] _]; subst. rewrite Hat'.
    inversion Hall as [|? ? [Hkk _] _]; subst.
    f_equal. f_equal. apply count_if_ext_in. intros d Hd.
    destruct (Z.ltb_spec (bucket_key r) (bucket_of bucket d)) as [Hlt|Hge].
    + symmetry. apply Z.leb_le.
      destruct (Hin d Hd) as [Heq|[Heq|Hin']]; [lia|lia|lia|].
      apply in_map_iff in Hin'. destruct Hin' as [x [Hx Hin']].
      inversion Hs as [|? ? _ Hall']; subst.
      rewrite Forall_forall in Hall'. destruct (Hall' x Hin') as [Hlt' _]. lia.
    + symmetry. apply Z.leb_gt. lia.
Qed.

End WithoutCensoring.

(** X8. When no record is censored, the Kaplan-Meier estimate is the empirical
    survival function: at every row, the fraction of the records whose bucket
    lies strictly beyond the row's. *)
Theorem kaplan_meier_without_censoring {D : Type} (bucket : D -> Z)
    (durations : list (Duration D)) :
  Forall (fun d => endpoint_observed d = true) durations ->
  Forall2
    (fun r s =>
       s = (of_int (count_if (fun d => bucket_key r <? bucket_of bucket d)
                             durations)
            / of_int (num_subjects durations))%Qc)
    (survival bucket durations)
    (survival_proba (R := Qc) bucket durations).
Proof.
  intros Hobs. rewrite Forall_forall in Hobs.
  rewrite survival_proba_factors.
  pose proof (survival_sorted bucket durations) as Hs.
  pose proof (survival_ok bucket durations) as Hok.
  assert (Hrows : Forall
                    (fun r =>
                       at_risk r
                       = count_if (fun d => bucket_key r <=? bucket_of bucket d)
                                  durations
                       /\ events r
                          = count_if (fun d => bucket_of bucket d =? bucket_key r)
                                     durations
                       /\ 1 <= at_risk r)
                    (survival bucket durations)).
  { apply Forall_forall. intros r Hr.
    rewrite Forall_forall in Hok. destruct (Hok r Hr) as [[_ [Hn Ha]] _].
    apply in_survival in Hr. destruct Hr as [_ [Hr _]].
    split; [rewrite Hr at 1; reflexivity|]. split; [|lia].
    rewrite Hr at 1. cbn [row_of events]. rewrite events_at_direct.
    apply count_if_ext_in. intros d Hd. now rewrite (Hobs d Hd), andb_true_r. }
  assert (Hin : forall d, In d durations ->
                          In (bucket_of bucket d)
                             (map bucket_key (survival bucket durations)))
    by (intros d Hd; apply observed_bucket_in_survival; auto).
  destruct (survival bucket durations) as [|r0 t] eqn:Hsurv; [constructor|].
  assert (Hn : at_risk r0 = num_subjects durations).
  { inversion Hrows as [|? ? [Hat _] _]; subst. rewrite Hat.
    unfold num_subjects, count_if. f_equal. f_equal.
    rewrite <- (filter_ext_in (fun _ => true)).
    - clear. induction durations as [|c col IH]; simpl; congruence.
    - intros d Hd. symmetry. apply Z.leb_le.
      destruct (Hin d Hd) as [Heq|Hin']; [lia|].
      apply in_map_iff in Hin'. destruct Hin' as [x [Hx Hin']].
      inversion Hs as [|? ? _ Hall]; subst.
      rewrite Forall_forall in Hall. destruct (Hall x Hin') as [Hlt _]. lia. }
  assert (HN : 0 < num_subjects durations).
  { inversion Hrows as [|? ? [_ [_ Hpos]] _]; subst. lia. }
  apply km_without_censoring_rows; try assumption.
  - intros d Hd _. now apply Hin.
  - rewrite Hn. symmetry. now apply of_int_ratio_one.
Qed.

Lemma kaplan_meier_without_censoring_witness :
  Forall (fun d => endpoint_observed d = true) uncensored_sample
  /\ Forall2
       (fun r s =>
          s = (of_int (count_if (fun d => bucket_key r <? bucket_of (fun z => z) d)
                                uncensored_sample)
               / of_int (num_subjects uncensored_sample))%Qc)
       (survival (fun z => z) uncensored_sample)
       (survival_proba (R := Qc) (fun z => z) uncensored_sample).
Proof.
  split; [repeat constructor|].
  apply (kaplan_meier_without_censoring (fun z => z) uncensored_sample).
  repeat constructor.
Defined.

(** * The life table does not depend on the order of the records *)

Lemma count_if_perm {A : Type} (p : A -> bool) (l1 l2 : list A) :
  Permutation l1 l2 -> count_if p l1 = count_if p l2.
Proof.
  induction 1 as [|x l l' _ IH|x y l|l l' l'' _ IH1 _ IH2].
  - reflexivity.
  - now rewrite !count_if_cons, IH.
  - rewrite !count_if_cons. lia.
  - now rewrite IH1.
Qed.

Lemma sorted_same_elements (l1 l2 : list Z) :
  StronglySorted Z.lt l1 -> StronglySorted Z.lt l2 ->
  (forall x, In x l1 <-> In x l2) -> l1 = l2.
Proof.
  intros H1. revert l2.
  induction H1 as [|h1 t1 Hs1 IH Hall1]; intros l2 H2 Hsame.
  - destruct l2 as [|h2 t2]; [reflexivity|].
    destruct (proj2 (Hsame h2) (or_introl eq_refl)).
  - destruct H2 as [|h2 t2 Hs2 Hall2].
    + destruct (proj1 (Hsame h1) (or_introl eq_refl)).
    + rewrite Forall_forall in Hall1, Hall2.
      assert (Hh : h1 = h2).
      { destruct (proj1 (Hsame h1) (or_introl eq_refl)) as [Heq|Hin1];
          [now symmetry|].
        destruct (proj2 (Hsame h2) (or_introl eq_refl)) as [Heq|Hin2];
          [assumption|].
        specialize (Hall1 h2 Hin2). specialize (Hall2 h1 Hin1). lia. }
      subst h2. f_equal. apply IH; [assumption|].
      intros x. split; intros Hx.
      * destruct (proj1 (Hsame x) (or_intror Hx)) as [Heq|Hin]; [|assumption].
        specialize (Hall1 x Hx). lia.
      * destruct (proj2 (Hsame x) (or_intror Hx)) as [Heq|Hin]; [|assumption].
        specialize (Hall2 x Hx). lia.
Qed.

(** X9. The life table depends on the records as a collection, not on their
    order: two permutations of the same records give the same frame, the same
    censored counts and the same estimates, in every arithmetic. *)
Theorem life_table_order_independent {D : Type} (bucket : D -> Z)
    (d1 d2 : list (Duration D)) :
  Permutation d1 d2 ->
  survival_all bucket d1 = survival_all bucket d2
  /\ survival bucket d1 = survival bucket d2
  /\ censored bucket d1 = censored bucket d2
  /\ forall (R : Type) (AR : Arith R),
      survival_proba (R := R) bucket d1 = survival_proba (R := R) bucket d2
      /\ cumulative_hazard (R := R) bucket d1
         = cumulative_hazard (R := R) bucket d2.
Proof.
  intros Hperm.
  assert (Hall : survival_all bucket d1 = survival_all bucket d2).
  { rewrite !survival_all_rows.
    assert (Hkeys : grp_keys bucket d1 = grp_keys bucket d2).
    { apply sorted_same_elements; try apply group_keys_sorted.
      intros x. rewrite !in_grp_keys.
      split; intros [d [Hd Hb]]; exists d; split; try assumption.
      - now apply (Permutation_in _ Hperm).
      - now apply (Permutation_in _ (Permutation_sym Hperm)). }
    rewrite Hkeys. apply map_ext. intros k. unfold row_of. f_equal.
    - apply (count_if_perm _ _ _ Hperm).
    - rewrite !num_obs_direct. now apply count_if_perm.
    - rewrite !events_at_direct. now apply count_if_perm. }
  assert (Hsurv : survival bucket d1 = survival bucket d2)
    by (unfold survival; now rewrite Hall).
  split; [exact Hall|]. split; [exact Hsurv|].
  split; [unfold censored; now rewrite Hsurv|].
  intros R AR.
  unfold survival_proba, cumulative_hazard, inverse_hazard, hazard.
  now rewrite Hsurv.
Qed.

Lemma life_table_order_independent_witness :
  Permutation scenario_A (rev scenario_A)
  /\ survival_all (fun z => z) scenario_A
     = survival_all (fun z => z) (rev scenario_A)
  /\ survival (fun z => z) scenario_A = survival (fun z => z) (rev scenario_A)
  /\ censored (fun z => z) scenario_A = censored (fun z => z) (rev scenario_A)
  /\ forall (R : Type) (AR : Arith R),
      survival_proba (R := R) (fun z => z) scenario_A
      = survival_proba (R := R) (fun z => z) (rev scenario_A)
      /\ cumulative_hazard (R := R) (fun z => z) scenario_A
         = cumulative_hazard (R := R) (fun z => z) (rev scenario_A).
Proof.
  split; [apply Permutation_rev|].
  apply (life_table_order_independent (fun z => z) scenario_A (rev scenario_A)).
  apply Permutation_rev.
Defined.

(** * Further properties of the aggregation of an event log *)

Local Close Scope string_scope.

Lemma idxmin_from_first (rows pre mid : list (nat * Z)) (best : nat * Z) :
  Forall (fun p => snd best < snd p) pre ->
  Forall (fun p => snd best <= snd p) mid ->
  exists pre' t post,
    pre ++ best :: mid ++ rows = pre' ++ (idxmin_from best rows, t) :: post
    /\ Forall (fun p => t < snd p) pre'
    /\ Forall (fun p => t <= snd p) post.
Proof.
  revert pre mid best. induction rows as [|r rest IH]; intros pre mid best Hpre Hmid.
  - exists pre, (snd best), mid. rewrite app_nil_r.
    cbn [idxmin_from]. now rewrite <- surjective_pairing.
  - cbn [idxmin_from]. destruct (Z.ltb_spec (snd r) (snd best)) as [Hlt|Hge].
    + destruct (IH (pre ++ best :: mid) [] r) as [pre' [t [post [Heq H]]]].
      * apply Forall_app. split.
        -- eapply Forall_impl; [|exact Hpre]. intros p Hp; simpl in *; lia.
        -- constructor; [exact Hlt|].
           eapply Forall_impl; [|exact Hmid]. intros p Hp; simpl in *; lia.
      * constructor.
      * exists pre', t, post. split; [|exact H].
        rewrite <- Heq. cbn [app]. rewrite <- app_assoc. reflexivity.
    + destruct (IH pre (mid ++ [r]) best Hpre) as [pre' [t [post [Heq H]]]].
      * apply Forall_app. split; [exact Hmid|]. now constructor.
      * exists pre', t, post. split; [|exact H].
        rewrite <- Heq. rewrite <- app_assoc. reflexivity.
Qed.

(** [idxmin] gives the label of the first row that attains the minimum:
    every row before it is strictly later, every row after it is not
    earlier. *)
Lemma idxmin_is_first_minimum (rows : list (nat * Z)) :
  match idxmin rows with
  | None => rows = []
  | Some l =>
      exists pre t post,
        rows = pre ++ (l, t) :: post
        /\ Forall (fun p => t < snd p) pre
        /\ Forall (fun p => t <= snd p) post
  end.
Proof.
  destruct rows as [|r rest]; [reflexivity|]. cbn [idxmin].
  destruct (idxmin_from_first rest [] [] r) as [pre [t [post H]]];
    [constructor|constructor|].
  now exists pre, t, post.
Qed.

Lemma fold_min_spec (xs : list Z) (x : Z) :
  In (fold_left Z.min xs x) (x :: xs)
  /\ forall y, In y (x :: xs) -> fold_left Z.min xs x <= y.
Proof.
  revert x. induction xs as [|h t IH]; intros x.
  - split; [now left|]. intros y [<-|[]]. simpl. lia.
  - cbn [fold_left]. destruct (IH (Z.min x h)) as [Hin Hle]. split.
    + destruct Hin as [Heq|Hin]; [|right; now right].
      rewrite <- Heq. destruct (Z.min_spec x h) as [[_ ->]|[_ ->]];
        [now left|right; now left].
    + intros y Hy.
      assert (Hm : fold_left Z.min t (Z.min x h) <= Z.min x h)
        by (apply Hle; now left).
      destruct Hy as [<-|[<-|Hy]]; [lia|lia|].
      apply Hle. now right.
Qed.

Lemma fold_max_spec (xs : list Z) (x : Z) :
  In (fold_left Z.max xs x) (x :: xs)
  /\ forall y, In y (x :: xs) -> y <= fold_left Z.max xs x.
Proof.
  revert x. induction xs as [|h t IH]; intros x.
  - split; [now left|]. intros y [<-|[]]. simpl. lia.
  - cbn [fold_left]. destruct (IH (Z.max x h)) as [Hin Hle]. split.
    + destruct Hin as [Heq|Hin]; [|right; now right].
      rewrite <- Heq. destruct (Z.max_spec x h) as [[_ ->]|[_ ->]];
        [right; now left|now left].
    + intros y Hy.
      assert (Hm : Z.max x h <= fold_left Z.max t (Z.max x h))
        by (apply Hle; now left).
      destruct Hy as [<-|[<-|Hy]]; [lia|lia|].
      apply Hle. now right.
Qed.

Lemma series_min_some (xs : list Z) (x : Z) :
  In x xs ->
  exists m, series_min xs = Some m /\ In m xs /\ forall y, In y xs -> m <= y.
Proof.
  destruct xs as [|h t]; [intros []|]. intros _.
  exists (fold_left Z.min t h). split; [reflexivity|apply fold_min_spec].
Qed.

Lemma series_max_some (xs : list Z) (x : Z) :
  In x xs ->
  exists m, series_max xs = Some m /\ In m xs /\ forall y, In y xs -> y <= m.
Proof.
  destruct xs as [|h t]; [intros []|]. intros _.
  exists (fold_left Z.max t h). split; [reflexivity|apply fold_max_spec].
Qed.

Lemma in_combine_seq (frame : DataFrame) (s : nat) (e : Event) :
  In e frame -> exists l, In (l, e) (combine (seq s (length frame)) frame).
Proof.
  revert s. induction frame as [|x t IH]; intros s; [intros []|].
  cbn [length seq combine]. intros [->|Hin].
  - exists s. now left.
  - destruct (IH (S s) Hin) as [l Hl]. exists l. now right.
Qed.

Lemma in_with_index (frame : DataFrame) (e : Event) :
  In e frame -> exists l, In (l, e) (with_index frame).
Proof. apply in_combine_seq. Qed.

Lemma filter_split {A : Type} (p : A -> bool) (l a b : list A) (x : A) :
  filter p l = a ++ x :: b ->
  exists la lb,
    l = la ++ x :: lb /\ filter p la = a /\ filter p lb = b /\ p x = true.
Proof.
  revert a. induction l as [|h t IH]; intros a Heq.
  - destruct a; discriminate Heq.
  - cbn [filter] in Heq. destruct (p h) eqn:Hp.
    + destruct a as [|a0 a'].
      * injection Heq as -> Hb. exists [], t. cbn [filter app]. auto.
      * injection Heq as -> Ht. destruct (IH a' Ht) as [la [lb [Hl [Ha [Hb Hx]]]]].
        exists (a0 :: la), lb. cbn [filter app]. rewrite Hp, Ha, Hl. auto.
    + destruct (IH a Heq) as [la [lb [Hl [Ha [Hb Hx]]]]].
      exists (h :: la), lb. cbn [filter app]. rewrite Hp, Ha, Hl. auto.
Qed.

Lemma filter_filter {A : Type} (p q : A -> bool) (l : list A) :
  filter q (filter p l) = filter (fun a => p a && q a) l.
Proof.
  induction l as [|h t IH]; [reflexivity|]. cbn [filter].
  destruct (p h); cbn [filter andb]; [destruct (q h)|]; now rewrite IH.
Qed.

Lemma map_snd_combine_seq (frame : DataFrame) (s : nat) :
  map snd (combine (seq s (length frame)) frame) = frame.
Proof.
  revert s. induction frame as [|x t IH]; intros s; [reflexivity|].
  cbn [length seq combine map snd]. now rewrite IH.
Qed.

Lemma map_snd_with_index (frame : DataFrame) :
  map snd (with_index frame) = frame.
Proof. apply map_snd_combine_seq. Qed.

Section OwnLogRecords.
Variables (log : DataFrame) (endpoints : list string).

(** The labelled endpoint events of a unit. *)
Lemma unit_endpoint_rows (u : Z) :
  filter (fun r => visitorid (snd r) =? u) (df_endpoint_rows log endpoints)
  = filter (fun r => isin (event (snd r)) endpoints && (visitorid (snd r) =? u))
           (with_index log).
Proof. apply filter_filter. Qed.

Lemma earliest_of_idxmin (u : Z) (l : nat) :
  idxmin (map (fun r => (fst r, timestamp (snd r)))
              (filter (fun r => visitorid (snd r) =? u)
                      (df_endpoint_rows log endpoints)))
  = Some l ->
  exists e, nth_error log l = Some e
            /\ earliest_endpoint_event log endpoints u e.
Proof.
  intros Hmin. pose proof (idxmin_is_first_minimum
                             (map (fun r => (fst r, timestamp (snd r)))
                                  (filter (fun r => visitorid (snd r) =? u)
                                          (df_endpoint_rows log endpoints))))
    as Hfirst.
  rewrite Hmin in Hfirst. destruct Hfirst as [pre [t [post [Heq [Hpre Hpost]]]]].
  apply map_eq_app in Heq. destruct Heq as [Gpre [Grest [HG [Hgpre Hrest]]]].
  apply map_eq_cons in Hrest. destruct Hrest as [x [Gpost [-> [Hx Hgpost]]]].
  destruct x as [l' e]. cbn [fst snd] in Hx. injection Hx as -> Ht.
  rewrite unit_endpoint_rows in HG.
  apply filter_split in HG. destruct HG as [X [Y [Hlog [HX [HY Hq]]]]].
  cbn [snd] in Hq. apply andb_true_iff in Hq. destruct Hq as [Hisin Hu].
  apply Z.eqb_eq in Hu.
  exists e. split.
  - apply with_index_nth. rewrite Hlog. apply in_or_app. right. now left.
  - split; [exact Hu|]. split; [exact Hisin|].
    exists (map snd X), (map snd Y). split.
    + rewrite <- (map_snd_with_index log) at 1. rewrite Hlog, map_app.
      reflexivity.
    + rewrite Forall_forall in Hpre, Hpost. split; intros e' He' Hu' Hi'.
      * apply in_map_iff in He'. destruct He' as [[l' e2] [Hs HinX]].
        cbn [snd] in Hs. subst e2.
        assert (Hin : In (l', e') Gpre).
        { rewrite <- HX. apply filter_In. split; [assumption|]. cbn [snd].
          rewrite Hi'. now apply Z.eqb_eq. }
        specialize (Hpre (l', timestamp e')). cbn [snd] in Hpre.
        rewrite Ht. apply Hpre. rewrite <- Hgpre.
        apply in_map_iff. now exists (l', e').
      * apply in_map_iff in He'. destruct He' as [[l' e2] [Hs HinY]].
        cbn [snd] in Hs. subst e2.
        assert (Hin : In (l', e') Gpost).
        { rewrite <- HY. apply filter_In. split; [assumption|]. cbn [snd].
          rewrite Hi'. now apply Z.eqb_eq. }
        specialize (Hpost (l', timestamp e')). cbn [snd] in Hpost.
        rewrite Ht. apply Hpost. rewrite <- Hgpost.
        apply in_map_iff. now exists (l', e').
Qed.

Lemma earliest_endpoint_rows_spec (keys : list Z) :
  (forall u, In u keys ->
             In u (map (fun r => visitorid (snd r))
                       (df_endpoint_rows log endpoints))) ->
  exists rows,
    iloc log
      (flat_map
         (fun u =>
            match idxmin (map (fun r => (fst r, timestamp (snd r)))
                              (filter (fun r => visitorid (snd r) =? u)
                                      (df_endpoint_rows log endpoints))) with
            | Some l => [l]
            | None => []
            end)
         keys)
    = inr rows
    /\ Forall2 (earliest_endpoint_event log endpoints) keys rows.
Proof.
  induction keys as [|u t IH]; intros Hkeys; [exists []; split; constructor|].
  destruct IH as [rows [Hrows Hspec]];
    [intros v Hv; apply Hkeys; now right|].
  assert (Hu : In u (map (fun r => visitorid (snd r))
                         (df_endpoint_rows log endpoints)))
    by (apply Hkeys; now left).
  apply in_map_iff in Hu. destruct Hu as [[l0 r0] [Hv0 Hin0]].
  cbn [flat_map].
  destruct (idxmin _) as [l|] eqn:Hmin.
  - destruct (earliest_of_idxmin u l Hmin) as [e [Hnth He]].
    exists (e :: rows). cbn [app iloc]. rewrite Hnth, Hrows. cbn [bind].
    split; [reflexivity|]. now constructor.
  - exfalso.
    assert (Hne : In (l0, r0)
                     (filter (fun r => visitorid (snd r) =? u)
                             (df_endpoint_rows log endpoints))).
    { apply filter_In. split; [assumption|]. cbn [snd] in *.
      now apply Z.eqb_eq. }
    destruct (filter _ _); [destruct Hne|discriminate Hmin].
Qed.

(** The run on the log itself, up to the subtraction of line 68: for every
    unit, in ascending order, the record is built from its earliest timestamp
    and from its earliest endpoint event, if it has one. *)
Lemma own_log_records :
  exists found : Z -> option Event,
    events_to_durations log log endpoints
    = collect
        (map (fun u =>
                record_of log u
                  (series_min
                     (map timestamp (filter (fun r => visitorid r =? u) log)))
                  (found u))
             (units log))
    /\ forall u,
        match found u with
        | Some e => earliest_endpoint_event log endpoints u e
        | None => forall e, In e log -> visitorid e = u ->
                            isin (event e) endpoints = false
        end.
Proof.
  destruct (earliest_endpoint_rows_spec
              (group_keys (map (fun r => visitorid (snd r))
                               (df_endpoint_rows log endpoints))))
    as [rows [Hrows Hspec]]; [intros u Hu; now apply in_group_keys|].
  assert (Hunits : map visitorid rows
                   = group_keys (map (fun r => visitorid (snd r))
                                     (df_endpoint_rows log endpoints))).
  { clear Hrows. induction Hspec as [|u r ks rs [Hu _] _ IH]; [reflexivity|].
    cbn [map]. now rewrite Hu, IH. }
  exists (fun u => lookup u rows). split.
  - unfold events_to_durations, aggregate.
    fold (endpoint_events log endpoints) in Hrows. rewrite Hrows.
    cbn [bind]. unfold align. rewrite Hunits.
    rewrite sorted_unique by apply group_keys_sorted. cbn [bind].
    unfold entry_times. now rewrite zip_with_units.
  - intros u. unfold lookup. destruct (find _ rows) as [e|] eqn:Hfind.
    + apply find_some in Hfind. destruct Hfind as [Hin Hu].
      apply Z.eqb_eq in Hu.
      assert (Hex : exists u', earliest_endpoint_event log endpoints u' e).
      { clear - Hspec Hin. induction Hspec as [|u' r ks rs Hr _ IH];
          [destruct Hin|].
        destruct Hin as [->|Hin]; [now exists u'|now apply IH]. }
      destruct Hex as [u' He]. destruct He as [Hu' He].
      rewrite Hu in Hu'. subst u'. split; assumption.
    + intros e He Hu. destruct (isin (event e) endpoints) eqn:Hi; [|reflexivity].
      exfalso.
      assert (Hk : In u (map visitorid rows)).
      { rewrite Hunits. apply in_group_keys.
        destruct (in_with_index log e He) as [l Hl].
        apply in_map_iff. exists (l, e). split; [exact Hu|].
        apply filter_In. split; [exact Hl|exact Hi]. }
      apply in_map_iff in Hk. destruct Hk as [r [Hr Hin]].
      pose proof (find_none _ _ Hfind r Hin) as Hn. cbn beta in Hn.
      apply Z.eqb_neq in Hn. contradiction.
Qed.

End OwnLogRecords.

(** The outcome of a column computed row by row. *)
Lemma collect_map_spec {A B : Type} (f : A -> result B) (us : list A) :
  match collect (map f us) with
  | inr rs => Forall2 (fun u r => f u = inr r) us rs
  | inl e => exists u, In u us /\ f u = inl e
  end.
Proof.
  induction us as [|u t IH]; [constructor|].
  cbn [map collect]. destruct (f u) as [e|r] eqn:Hu; cbn [bind].
  - exists u. split; [now left|assumption].
  - destruct (collect (map f t)) as [e|rs]; cbn [bind].
    + destruct IH as [v [Hv Hf]]. exists v. split; [now right|assumption].
    + now constructor.
Qed.

Lemma tsub_error (a b : option Z) (e : Error) :
  tsub a b = inl e ->
  e = OverflowError
  /\ exists x y, a = Some x /\ b = Some y /\ timedelta_ok (x - y) = false.
Proof.
  destruct a as [x|], b as [y|]; cbn [tsub]; try discriminate.
  destruct (timedelta_ok (x - y)) eqn:Hok; [discriminate|].
  intros [= <-]. split; [reflexivity|]. now exists x, y.
Qed.

Lemma record_of_value (df : DataFrame) (u : Z) (entry : option Z)
    (found : option Event) (r : DurationRecord) :
  record_of df u entry found = inr r ->
  unit_id r = u /\ entry_time r = entry
  /\ endpoint r = option_map event found
  /\ endpoint_time r = option_map timestamp found
  /\ final_obs_time r
     = fillna (option_map timestamp found) (series_max (map timestamp df))
  /\ tsub (final_obs_time r) (entry_time r) = inr (duration r).
Proof.
  unfold record_of, censoring_time.
  destruct (tsub _ entry) as [e|d] eqn:Hd; cbn [bind]; [discriminate|].
  intros [= <-]. cbn. auto 6.
Qed.

Lemma record_of_error (df : DataFrame) (u : Z) (entry : option Z)
    (found : option Event) (e : Error) :
  record_of df u entry found = inl e ->
  tsub (fillna (option_map timestamp found) (series_max (map timestamp df)))
       entry
  = inl e.
Proof.
  unfold record_of, censoring_time.
  destruct (tsub _ entry) as [e'|d] eqn:Hd; cbn [bind]; [|discriminate].
  now intros [= <-].
Qed.

Lemma timedelta_ok_nonneg (d : Z) :
  0 <= d -> timedelta_ok d = false -> int64_max < d.
Proof.
  unfold timedelta_ok, int64_max. intros Hd Hok.
  apply andb_false_iff in Hok. destruct Hok as [Hok|Hok].
  - apply Z.leb_gt in Hok. lia.
  - now apply Z.leb_gt in Hok.
Qed.

(** The outcome of a run on the log itself: a table with one record per unit,
    each as [record_facts] describes; or, when the span of the log does not
    fit, the overflow of line 68. *)
Lemma own_log_record_facts (log : DataFrame) (endpoints : list string) :
  match events_to_durations log log endpoints with
  | inr records =>
      map unit_id records = units log
      /\ Forall (record_facts log endpoints) records
  | inl e => e = OverflowError /\ ~ span_fits log
  end.
Proof.
  destruct (own_log_records log endpoints) as [found [Hrun Hfound]].
  rewrite Hrun. clear Hrun.
  assert (Hunit : forall u, In u (units log) ->
            exists e0 m lo hi,
              In e0 log /\ visitorid e0 = u
              /\ series_min
                   (map timestamp (filter (fun r => visitorid r =? u) log))
                 = Some m
              /\ (exists e, In e log /\ visitorid e = u /\ timestamp e = m)
              /\ (forall e, In e log -> visitorid e = u -> m <= timestamp e)
              /\ series_min (map timestamp log) = Some lo
              /\ series_max (map timestamp log) = Some hi
              /\ (forall e, In e log -> lo <= timestamp e <= hi)).
  { intros u Hu. apply (proj1 (in_group_keys _ _)) in Hu.
    apply in_map_iff in Hu. destruct Hu as [e0 [Hu0 He0]].
    assert (Hts : In (timestamp e0)
                     (map timestamp (filter (fun r => visitorid r =? u) log))).
    { apply in_map. apply filter_In. split; [assumption|]. now apply Z.eqb_eq. }
    destruct (series_min_some _ _ Hts) as [m [Hm [Hinm Hle]]].
    assert (Hall : In (timestamp e0) (map timestamp log)) by now apply in_map.
    destruct (series_min_some _ _ Hall) as [lo [Hlo [_ Hlo_le]]].
    destruct (series_max_some _ _ Hall) as [hi [Hhi [_ Hhi_ge]]].
    exists e0, m, lo, hi. repeat split; try assumption.
    - apply in_map_iff in Hinm. destruct Hinm as [e [Ht He]].
      apply filter_In in He. destruct He as [He Hue].
      apply Z.eqb_eq in Hue. now exists e.
    - intros e He Hue. apply Hle. apply in_map. apply filter_In.
      split; [assumption|]. now apply Z.eqb_eq.
    - apply Hlo_le. now apply in_map.
    - apply Hhi_ge. now apply in_map. }
  assert (Hfinal : forall u, In u (units log) ->
            exists fin,
              fillna (option_map timestamp (found u))
                     (series_max (map timestamp log)) = Some fin
              /\ exists e, In e log /\ timestamp e = fin
                           /\ (found u <> None -> visitorid e = u)).
  { intros u Hu. destruct (Hunit u Hu)
      as [e0 [m [lo [hi [He0 [_ [_ [_ [_ [_ [Hhi _]]]]]]]]]]].
    specialize (Hfound u). destruct (found u) as [e|]; cbn [option_map fillna].
    - destruct Hfound as [Hue [_ [pre [post [Hlog _]]]]].
      exists (timestamp e). split; [reflexivity|]. exists e.
      split; [rewrite Hlog; apply in_or_app; right; now left|]. auto.
    - assert (Hall : In (timestamp e0) (map timestamp log)) by now apply in_map.
      destruct (series_max_some _ _ Hall) as [hi' [Hhi' [Hin _]]].
      exists hi'. split; [exact Hhi'|].
      apply in_map_iff in Hin. destruct Hin as [e [Ht He]].
      exists e. split; [assumption|]. split; [assumption|congruence]. }
  pose proof (collect_map_spec
                (fun u =>
                   record_of log u
                     (series_min
                        (map timestamp
                             (filter (fun r => visitorid r =? u) log)))
                     (found u))
                (units log)) as Hspec.
  destruct (collect _) as [e|records].
  - destruct Hspec as [u [Hu Herr]].
    apply record_of_error, tsub_error in Herr.
    destruct Herr as [-> [x [y [Hx [Hy Hok]]]]]. split; [reflexivity|].
    destruct (Hunit u Hu)
      as [_ [m [lo [hi [_ [_ [Hm [[em [Hem [Huem Htm]]] [Hmin [Hlo [Hhi Hb]]]]]]]]]]].
    destruct (Hfinal u Hu) as [fin [Hfin [ef [Hef [Htf Huf]]]]].
    rewrite Hm in Hy. injection Hy as <-. rewrite Hfin in Hx. injection Hx as <-.
    assert (Hge : m <= fin).
    { specialize (Hfound u). destruct (found u) as [e|].
      - subst fin. apply Hmin; [assumption|]. apply Huf. discriminate.
      - cbn [option_map fillna] in Hfin. rewrite Hhi in Hfin.
        injection Hfin as <-. subst m. apply (Hb em Hem). }
    apply timedelta_ok_nonneg in Hok; [|lia].
    unfold span_fits. rewrite Hlo, Hhi. intros Hspan.
    pose proof (Hb ef Hef) as [_ Hfhi]. pose proof (Hb em Hem) as [Hmlo _].
    lia.
  - split.
    + clear - Hspec. induction Hspec as [|u r us rs Hr _ IH]; [reflexivity|].
      apply record_of_value in Hr. destruct Hr as [Hr _].
      cbn [map]. now rewrite Hr, IH.
    + assert (Hin : forall r, In r records ->
                exists u, In u (units log)
                          /\ record_of log u
                               (series_min
                                  (map timestamp
                                       (filter (fun r => visitorid r =? u) log)))
                               (found u) = inr r).
      { clear - Hspec. induction Hspec as [|u r us rs Hr _ IH]; [intros ? []|].
        intros r' [<-|Hr']; [exists u; split; [now left|assumption]|].
        destruct (IH r' Hr') as [v [Hv Hf]]. exists v. split; [now right|assumption]. }
      apply Forall_forall. intros r Hr. destruct (Hin r Hr) as [u [Hu Hrec]].
      apply record_of_value in Hrec.
      destruct Hrec as [Hid [Hentry [Hend [Hendt [Hfinobs Hdur]]]]].
      destruct (Hunit u Hu)
        as [e0 [m [lo [hi [He0 [Hu0 [Hm [Hatt [Hmin _]]]]]]]]].
      unfold record_facts. rewrite Hid, Hentry, Hm.
      split; [now exists e0|]. split; [now exists m|].
      split; [|now rewrite <- Hm, <- Hentry].
      rewrite Hendt, Hend, Hfinobs. specialize (Hfound u).
      destruct (found u) as [e|]; cbn [option_map fillna].
      * exists e. auto.
      * auto.
Qed.

Lemma sorted_NoDup (ks : list Z) : StronglySorted Z.lt ks -> NoDup ks.
Proof.
  induction 1 as [|k t Hs IH Hall]; constructor; [|assumption].
  intros Hin. rewrite Forall_forall in Hall. specialize (Hall k Hin). lia.
Qed.

Lemma tsub_value (x y : Z) (d : option Z) :
  tsub (Some x) (Some y) = inr d ->
  d = Some (x - y) /\ timedelta_ok (x - y) = true.
Proof.
  cbn [tsub]. destruct (timedelta_ok (x - y)); [|discriminate].
  intros [= <-]. auto.
Qed.

(** X10. Run on its own log (the module-level frame is the log, as in the
    script), the aggregation never ends in an [IndexError] or a [ValueError].
    It returns a table with exactly one record per unit of the log, in
    ascending order of the unit (the check of line 99); or, and only when the
    span of the timestamps of the log does not fit 64-bit nanoseconds, it ends
    in the [OverflowError] of the subtraction of line 68. *)
Theorem one_record_per_unit (log : DataFrame) (endpoints : list string) :
  match events_to_durations log log endpoints with
  | inr records =>
      StronglySorted Z.lt (map unit_id records)
      /\ NoDup (map unit_id records)
      /\ forall u,
          In u (map unit_id records)
          <-> exists e, In e log /\ visitorid e = u
  | inl e => e = OverflowError /\ ~ span_fits log
  end.
Proof.
  pose proof (own_log_record_facts log endpoints) as H.
  destruct (events_to_durations log log endpoints) as [e|records]; [exact H|].
  destruct H as [Hunits _]. rewrite Hunits.
  split; [apply group_keys_sorted|].
  split; [apply sorted_NoDup, group_keys_sorted|].
  intros u. unfold units. rewrite in_group_keys, in_map_iff.
  split; intros [e He]; exists e; tauto.
Qed.

(** X11. Run on its own log, when the aggregation returns a table every
    record has as entry time the earliest timestamp among the events of its
    unit; it returns a table unless the span of the log does not fit 64-bit
    nanoseconds and line 68 overflows. *)
Theorem entry_time_is_earliest (log : DataFrame) (endpoints : list string) :
  match events_to_durations log log endpoints with
  | inr records =>
      Forall
        (fun r =>
           exists m,
             entry_time r = Some m
             /\ (exists e, In e log /\ visitorid e = unit_id r
                           /\ timestamp e = m)
             /\ forall e, In e log -> visitorid e = unit_id r ->
                          m <= timestamp e)
        records
  | inl e => e = OverflowError /\ ~ span_fits log
  end.
Proof.
  pose proof (own_log_record_facts log endpoints) as H.
  destruct (events_to_durations log log endpoints) as [e|records]; [exact H|].
  destruct H as [_ Hall].
  eapply Forall_impl; [|exact Hall]. intros r [_ [He _]]. exact He.
Qed.

(** X12. Run on its own log, when the aggregation returns a table, a record
    with an endpoint time reports the earliest endpoint event of its unit: an
    event of the unit whose type is among the endpoints, strictly earlier
    than every such event before it in the log and not later than any after
    it (of several earliest ones, the first in the log); the final
    observation time is then the endpoint time.  A record without endpoint
    time belongs to a unit that has no endpoint event; its endpoint is
    missing and its final observation time is the latest timestamp of the
    whole log.  The aggregation returns a table unless the span of the log
    does not fit 64-bit nanoseconds and line 68 overflows. *)
Theorem endpoint_is_earliest_endpoint_event (log : DataFrame)
    (endpoints : list string) :
  match events_to_durations log log endpoints with
  | inr records =>
      Forall
        (fun r =>
           match endpoint_time r with
           | Some t =>
               exists e,
                 earliest_endpoint_event log endpoints (unit_id r) e
                 /\ t = timestamp e
                 /\ endpoint r = Some (event e)
                 /\ final_obs_time r = Some t
           | None =>
               endpoint r = None
               /\ (forall e, In e log -> visitorid e = unit_id r ->
                             isin (event e) endpoints = false)
               /\ final_obs_time r = series_max (map timestamp log)
           end)
        records
  | inl e => e = OverflowError /\ ~ span_fits log
  end.
Proof.
  pose proof (own_log_record_facts log endpoints) as H.
  destruct (events_to_durations log log endpoints) as [e|records]; [exact H|].
  destruct H as [_ Hall].
  eapply Forall_impl; [|exact Hall]. intros r [_ [_ [He _]]]. exact He.
Qed.

(** X13. Run on its own log, when the aggregation returns a table every
    record has a duration, the final observation time minus the entry time;
    it is not negative, not longer than the span of the log (its latest minus
    its earliest timestamp: the check of lines 100-102) and fits 64-bit
    nanoseconds.  Otherwise the subtraction of line 68 has overflowed, and
    the span of the log does not fit 64-bit nanoseconds. *)
Theorem duration_within_span (log : DataFrame) (endpoints : list string) :
  match events_to_durations log log endpoints with
  | inr records =>
      Forall
        (fun r =>
           exists fin entry lo hi,
             final_obs_time r = Some fin
             /\ entry_time r = Some entry
             /\ duration r = Some (fin - entry)
             /\ series_min (map timestamp log) = Some lo
             /\ series_max (map timestamp log) = Some hi
             /\ 0 <= fin - entry <= hi - lo
             /\ fin - entry <= int64_max)
        records
  | inl e => e = OverflowError /\ ~ span_fits log
  end.
Proof.
  pose proof (own_log_record_facts log endpoints) as H.
  destruct (events_to_durations log log endpoints) as [e|records]; [exact H|].
  destruct H as [_ Hall].
  eapply Forall_impl; [|exact Hall].
  intros r [[e0 [He0 _]] [[m [Hm [[em [Hem [_ Htm]]] Hmin]]] [Hend Hdur]]].
  assert (Hts : In (timestamp e0) (map timestamp log)) by now apply in_map.
  destruct (series_min_some _ _ Hts) as [lo [Hlo [_ Hlo_le]]].
  destruct (series_max_some _ _ Hts) as [hi [Hhi [_ Hhi_ge]]].
  assert (Hm_lo : lo <= m) by (rewrite <- Htm; apply Hlo_le; now apply in_map).
  assert (Hm_hi : m <= hi) by (rewrite <- Htm; apply Hhi_ge; now apply in_map).
  assert (Hfin : exists fin, final_obs_time r = Some fin /\ m <= fin <= hi).
  { destruct (endpoint_time r) as [t|].
    - destruct Hend as [e [[Hu [_ [pre [post [Hlog _]]]]] [Ht [_ Hfin]]]].
      assert (He : In e log)
        by (rewrite Hlog; apply in_or_app; right; now left).
      exists t. split; [exact Hfin|]. rewrite Ht. split.
      + now apply Hmin.
      + apply Hhi_ge. now apply in_map.
    - destruct Hend as [_ [_ Hfin]]. rewrite Hhi in Hfin.
      exists hi. split; [exact Hfin|]. lia. }
  destruct Hfin as [fin [Hfin Hb]].
  rewrite Hfin, Hm in Hdur. apply tsub_value in Hdur.
  destruct Hdur as [Hd Hok]. exists fin, m, lo, hi.
  unfold timedelta_ok in Hok. apply andb_true_iff in Hok.
  destruct Hok as [_ Hok]. apply Z.leb_le in Hok.
  repeat split; try assumption; lia.
Qed.

Lemma sorted_filter_NoDup {A : Type} (f : A -> Z) (p : A -> bool)
    (l : list A) :
  StronglySorted Z.lt (map f l) -> NoDup (map f (filter p l)).
Proof.
  intros Hs. apply sorted_NoDup. apply StronglySorted_map.
  apply StronglySorted_filter.
  clear p. remember (map f l) as ks eqn:Hks. revert l Hks.
  induction Hs as [|k t Hs IH Hall]; intros l Hks.
  - destruct l; [constructor|discriminate].
  - destruct l as [|a l']; [discriminate|]. injection Hks as -> ->.
    constructor; [now apply IH|]. now rewrite Forall_map in Hall.
Qed.

(** X14. Run on its own log, when the aggregation returns a table the number
    of records with an observed endpoint is at most the number of events of
    the log whose type is among the endpoints (the check of lines 103-106);
    it returns a table unless the span of the log does not fit 64-bit
    nanoseconds and line 68 overflows. *)
Theorem observed_at_most_endpoint_events (log : DataFrame)
    (endpoints : list string) :
  match events_to_durations log log endpoints with
  | inr records =>
      count_if endpoint_observed_of records
      <= count_if (fun e => isin (event e) endpoints) log
  | inl e => e = OverflowError /\ ~ span_fits log
  end.
Proof.
  pose proof (own_log_record_facts log endpoints) as H.
  destruct (events_to_durations log log endpoints) as [e|records]; [exact H|].
  destruct H as [Hunits Hall].
  unfold count_if. apply inj_le.
  rewrite <- (length_map unit_id (filter endpoint_observed_of records)).
  rewrite <- (length_map visitorid (filter _ log)).
  apply NoDup_incl_length.
  - apply sorted_filter_NoDup. rewrite Hunits. apply group_keys_sorted.
  - intros u Hu. apply in_map_iff in Hu. destruct Hu as [r [<- Hr]].
    apply filter_In in Hr. destruct Hr as [Hr Hobs].
    rewrite Forall_forall in Hall.
    destruct (Hall r Hr) as [_ [_ [Hend _]]].
    unfold endpoint_observed_of in Hobs.
    destruct (endpoint_time r) as [t|].
    + destruct Hend as [e [[Hu [Hi [pre [post [Hlog _]]]]] _]].
      apply in_map_iff. exists e. split; [exact Hu|].
      apply filter_In. split; [|exact Hi].
      rewrite Hlog. apply in_or_app. right. now left.
    + destruct Hend as [Hnone _]. rewrite Hnone in Hobs. discriminate.
Qed.

Lemma filter_none {A : Type} (p : A -> bool) (l : list A) :
  (forall a, In a l -> p a = false) -> filter p l = [].
Proof.
  induction l as [|h t IH]; intros Hp; [reflexivity|]. cbn [filter].
  rewrite (Hp h (or_introl eq_refl)). apply IH. intros a Ha. apply Hp. now right.
Qed.

(** X15. When no event of the log has its type among the endpoints (as with
    an empty list of endpoints), the look-ups of lines 54-59 cannot fail,
    whatever the module-level frame [df] holds.  The aggregation returns one
    record per unit of the log, each without endpoint and endpoint time and
    with the latest timestamp of [df] as final observation time; or, and only
    when [df] is not empty, it ends in the [OverflowError] of line 68, the
    latest timestamp of [df] lying too far from an entry time. *)
Theorem no_endpoint_events_all_censored (df log : DataFrame)
    (endpoints : list string) :
  (forall e, In e log -> isin (event e) endpoints = false) ->
  match events_to_durations df log endpoints with
  | inr records =>
      map unit_id records = units log
      /\ Forall
           (fun r =>
              endpoint r = None /\ endpoint_time r = None
              /\ final_obs_time r = series_max (map timestamp df))
           records
  | inl e =>
      e = OverflowError
      /\ exists hi entry,
          series_max (map timestamp df) = Some hi
          /\ In (Some entry) (map snd (entry_times log))
          /\ timedelta_ok (hi - entry) = false
  end.
Proof.
  intros Hnone.
  assert (Hrows : df_endpoint_rows log endpoints = []).
  { unfold df_endpoint_rows. apply filter_none. intros [l e] Hin.
    apply Hnone. rewrite <- (map_snd_with_index log).
    apply in_map_iff. now exists (l, e). }
  unfold events_to_durations, aggregate, endpoint_events.
  rewrite Hrows. cbn [map group_keys fold_right flat_map iloc bind].
  unfold align. cbn [map unique bind]. unfold entry_times.
  rewrite zip_with_units. cbn [fst snd].
  pose proof (collect_map_spec
                (fun u =>
                   record_of df u
                     (series_min
                        (map timestamp
                             (filter (fun r => visitorid r =? u) log)))
                     (lookup u []))
                (units log)) as Hspec.
  destruct (collect _) as [e|records].
  - destruct Hspec as [u [Hu Herr]].
    apply record_of_error, tsub_error in Herr.
    destruct Herr as [-> [x [y [Hx [Hy Hok]]]]]. split; [reflexivity|].
    cbn [lookup find option_map fillna] in Hx.
    exists x, y. split; [exact Hx|]. split; [|exact Hok].
    rewrite map_map. cbn [snd]. rewrite <- Hy.
    apply (in_map (fun u => series_min
                              (map timestamp
                                   (filter (fun r => visitorid r =? u) log)))).
    exact Hu.
  - split.
    + clear - Hspec. induction Hspec as [|u r us rs Hr _ IH]; [reflexivity|].
      apply record_of_value in Hr. destruct Hr as [Hr _].
      cbn [map]. now rewrite Hr, IH.
    + clear - Hspec. induction Hspec as [|u r us rs Hr _ IH]; constructor;
        [|assumption].
      apply record_of_value in Hr.
      destruct Hr as [_ [_ [He [Ht [Hf _]]]]]. auto.
Qed.

Lemma no_endpoint_events_all_censored_witness :
  (forall e, In e view_log -> isin (event e) ["transaction"%string] = false)
  /\ match events_to_durations [] view_log ["transaction"%string] with
     | inr records =>
         map unit_id records = units view_log
         /\ Forall
              (fun r =>
                 endpoint r = None /\ endpoint_time r = None
                 /\ final_obs_time r = series_max (map timestamp []))
              records
     | inl e =>
         e = OverflowError
         /\ exists hi entry,
             series_max (map timestamp []) = Some hi
             /\ In (Some entry) (map snd (entry_times view_log))
             /\ timedelta_ok (hi - entry) = false
     end.
Proof.
  assert (H : forall e, In e view_log ->
                        isin (event e) ["transaction"%string] = false)
    by (intros e [<-|[]]; reflexivity).
  split; [exact H|].
  exact (no_endpoint_events_all_censored [] view_log ["transaction"%string] H).
Defined.

(** X16. When the module-level frame [df] is empty and the log has an event
    whose type is among the endpoints, the positional look-up of line 54
    fails: the aggregation ends in an [IndexError]. *)
Theorem empty_frame_index_error (log : DataFrame) (endpoints : list string)
    (e : Event) :
  In e log -> isin (event e) endpoints = true ->
  events_to_durations [] log endpoints = inl IndexError.
Proof.
  intros He Hi.
  destruct (in_with_index log e He) as [l Hl].
  assert (Hin : In (l, e) (df_endpoint_rows log endpoints))
    by (apply filter_In; split; assumption).
  unfold events_to_durations, aggregate, endpoint_events.
  destruct (group_keys (map (fun r => visitorid (snd r))
                            (df_endpoint_rows log endpoints)))
    as [|k ks] eqn:Hkeys.
  - exfalso.
    assert (Hk : In (visitorid e)
                    (group_keys (map (fun r => visitorid (snd r))
                                     (df_endpoint_rows log endpoints)))).
    { apply in_group_keys. apply in_map_iff. now exists (l, e). }
    rewrite Hkeys in Hk. destruct Hk.
  - assert (Hk : In k (map (fun r => visitorid (snd r))
                           (df_endpoint_rows log endpoints))).
    { apply in_group_keys. rewrite Hkeys. now left. }
    apply in_map_iff in Hk. destruct Hk as [[l0 r0] [Hv0 Hin0]].
    cbn [flat_map]. destruct (idxmin _) as [l1|] eqn:Hmin.
    + cbn [app iloc]. now destruct l1.
    + exfalso.
      assert (Hne : In (l0, r0)
                       (filter (fun r => visitorid (snd r) =? k)
                               (df_endpoint_rows log endpoints))).
      { apply filter_In. split; [assumption|]. cbn [snd] in *.
        now apply Z.eqb_eq. }
      destruct (filter _ _); [destruct Hne|discriminate Hmin].
Qed.

Lemma empty_frame_index_error_witness :
  In (mkEvent 1 5 "transaction"%string) transaction_log
  /\ isin (event (mkEvent 1 5 "transaction"%string)) ["transaction"%string]
     = true
  /\ events_to_durations [] transaction_log ["transaction"%string]
     = inl IndexError.
Proof.
  split; [now left|]. split; [reflexivity|].
  apply (empty_frame_index_error transaction_log ["transaction"%string]
           (mkEvent 1 5 "transaction"%string)); [now left|reflexivity].
Defined.

(** * Where the survival estimate reaches zero *)

Lemma km_factor_zero (r : Row) :
  row_ok r -> 1 <= events r ->
  (km_factor r = 0%Qc <-> events r = at_risk r).
Proof.
  intros [[_ He] [_ Ha]] Hev. split.
  - intros Hz. destruct (Z.eq_dec (events r) (at_risk r)) as [|Hne];
      [assumption|].
    assert (Hpos : (0 < km_factor r)%Qc) by (apply km_factor_pos; lia).
    rewrite Hz in Hpos. discriminate Hpos.
  - intros Heq. unfold km_factor. rewrite Heq, of_int_ratio_one by lia.
    now apply Qc_is_canon.
Qed.

Lemma last_survival_zero (rows : list Row) (a : Qc) :
  StronglySorted row_before rows ->
  Forall (fun r => row_ok r /\ 1 <= events r) rows ->
  (0 < a)%Qc ->
  (last (accumulate_from Qcmult a (map km_factor rows)) 1%Qc = 0%Qc
   <-> last (censored_rows rows) 1 = 0).
Proof.
  intros Hs. revert a. induction Hs as [|r t Hs IH Hall]; intros a Hok Ha.
  - cbn. split; discriminate.
  - inversion Hok as [|? ? [Hr Hev] Hok']; subst.
    destruct t as [|r' t'].
    + cbn [map accumulate_from censored_rows last]. split.
      * intros Hz. apply Qcmult_integral in Hz. destruct Hz as [Hz|Hz].
        -- rewrite Hz in Ha. discriminate Ha.
        -- apply (proj1 (km_factor_zero r Hr Hev)) in Hz. lia.
      * intros Hz. assert (Heq : events r = at_risk r) by lia.
        apply (proj2 (km_factor_zero r Hr Hev)) in Heq.
        rewrite Heq. apply Qcmult_0_r.
    + assert (Hpos : (0 < a * km_factor r)%Qc).
      { apply Qc_mult_pos; [assumption|]. apply km_factor_pos.
        inversion Hall as [|? ? [_ Hstep] _]; subst.
        inversion Hok' as [|? ? [[_ [Hn' Ha']] _] _]; subst.
        destruct Hr as [[_ He] _]. lia. }
      specialize (IH (a * km_factor r)%Qc Hok' Hpos).
      change (last (accumulate_from Qcmult a (map km_factor (r :: r' :: t'))) 1%Qc)
        with (last (accumulate_from Qcmult (a * km_factor r)%Qc
                                    (map km_factor (r' :: t'))) 1%Qc).
      change (last (censored_rows (r :: r' :: t')) 1)
        with (last (censored_rows (r' :: t')) 1).
      exact IH.
Qed.

(** X17. The survival estimate ends at 0 exactly when the last row of the
    life table has no censored record: when every record at or beyond the
    last bucket with an event has its event in that bucket.  (On an empty
    table neither column has a last value.) *)
Theorem survival_ends_at_zero_iff_last_uncensored {D : Type} (bucket : D -> Z)
    (durations : list (Duration D)) :
  last (survival_proba (R := Qc) bucket durations) 1%Qc = 0%Qc
  <-> last (censored bucket durations) 1 = 0.
Proof.
  rewrite survival_proba_factors, censored_by_rows.
  apply last_survival_zero;
    [apply survival_sorted|apply survival_ok|reflexivity].
Qed.

(** * [events_to_conversions] *)

(** X19. Whatever log it is given, [events_to_conversions] never ends in an
    [IndexError] or a [ValueError]: it works on the module-level frame [df].
    It returns one record per unit of [df] in ascending order, each with the
    unit's earliest timestamp as entry time, its earliest conversion event
    (or none, and then the latest timestamp of [df] as final observation
    time) and the duration between the two; or, and only when the span of the
    timestamps of [df] does not fit 64-bit nanoseconds, it ends in the
    [OverflowError] of the subtraction of line 64. *)
Theorem conversions_describe_module_frame (df data : DataFrame)
    (conversion_events : list string) :
  match events_to_conversions df data conversion_events with
  | inr records =>
      map unit_id records = units df
      /\ StronglySorted Z.lt (map unit_id records)
      /\ Forall (record_facts df conversion_events) records
  | inl e => e = OverflowError /\ ~ span_fits df
  end.
Proof.
  pose proof (own_log_record_facts df conversion_events) as H.
  change (events_to_conversions df data conversion_events)
    with (events_to_durations df df conversion_events).
  destruct (events_to_durations df df conversion_events) as [e|records];
    [exact H|].
  destruct H as [Hunits Hall]. split; [exact Hunits|].
  split; [|exact Hall]. rewrite Hunits. apply group_keys_sorted.
Qed.

(** * The censored counts of the surviving rows *)

Lemma censored_rows_backed_out {D : Type} (bucket : D -> Z)
    (durations : list (Duration D)) (rows : list Row) :
  Forall
    (fun r =>
       events r = events_direct bucket durations (bucket_key r)
       /\ at_risk r = at_risk_direct bucket durations (bucket_key r))
    rows ->
  censored_rows rows = backed_out bucket durations (map bucket_key rows).
Proof.
  induction 1 as [|r t [He Ha] Hall IH]; [reflexivity|].
  cbn [censored_rows map backed_out]. rewrite IH, He, Ha. f_equal.
  destruct Hall as [|r' t' [_ Ha'] _]; [reflexivity|].
  cbn [map]. now rewrite Ha'.
Qed.

(** C3. The rows of the life table are the buckets that hold at least one
    event, each once and in ascending order of the bucket; every row has at
    least one event, its events are the events of its bucket and its at-risk
    count is the number of records in its own or a later bucket.  On these
    rows the censored count at position [i] is
    [at_risk[i] - at_risk[i+1] - events[i]], where [at_risk[i+1]] is the
    at-risk count of the next row, that is of the next bucket with an event,
    and is read as 0 past the last row. *)
Theorem censored_is_backed_out_of_at_risk {D : Type} (bucket : D -> Z)
    (durations : list (Duration D)) :
  StronglySorted Z.lt (map bucket_key (survival bucket durations))
  /\ (forall k,
         In k (map bucket_key (survival bucket durations))
         <-> exists d,
               In d durations /\ bucket_of bucket d = k
               /\ endpoint_observed d = true)
  /\ Forall
       (fun r =>
          1 <= events r
          /\ events r = events_direct bucket durations (bucket_key r)
          /\ at_risk r = at_risk_direct bucket durations (bucket_key r))
       (survival bucket durations)
  /\ censored bucket durations
     = map (fun i =>
              nth i (map at_risk (survival bucket durations)) 0
              - nth (S i) (map at_risk (survival bucket durations)) 0
              - nth i (map events (survival bucket durations)) 0)
           (seq 0 (length (survival bucket durations)))
  /\ censored bucket durations
     = backed_out bucket durations
         (map bucket_key (survival bucket durations)).
Proof.
  assert (Hrows : Forall
                    (fun r =>
                       1 <= events r
                       /\ events r
                          = events_direct bucket durations (bucket_key r)
                       /\ at_risk r
                          = at_risk_direct bucket durations (bucket_key r))
                    (survival bucket durations)).
  { apply Forall_forall. intros r Hr. apply in_survival in Hr.
    destruct Hr as [_ [Hr Hev]]. split; [exact Hev|]. split.
    - rewrite Hr at 1. cbn [row_of events]. apply events_at_direct.
    - rewrite Hr at 1. reflexivity. }
  split; [apply survival_keys_ascending|].
  split; [|split; [exact Hrows|split]].
  - intros k. split.
    + intros Hk. apply in_map_iff in Hk. destruct Hk as [r [<- Hr]].
      rewrite Forall_forall in Hrows. destruct (Hrows r Hr) as [Hev [He _]].
      rewrite He in Hev. apply count_if_pos in Hev.
      destruct Hev as [d [Hd Hp]]. apply andb_true_iff in Hp.
      destruct Hp as [Hk Ho]. apply Z.eqb_eq in Hk. now exists d.
    + intros [d [Hd [<- Ho]]]. now apply observed_bucket_in_survival.
  - rewrite censored_by_rows. apply censored_rows_by_position.
  - rewrite censored_by_rows. apply censored_rows_backed_out.
    eapply Forall_impl; [|exact Hrows]. intros r [_ H]. exact H.
Qed.
